(** * The ndb event loop ([google/appengine/ext/ndb/eventloop.py])

    A shallow embedding of class [EventLoop] and the properties of its
    scheduling algorithm.

    How the Python program is read:
    - times (deadlines, delays, the clock) are Python numbers; they are taken
      in [Z], so the arithmetic of [queue_call] and [run0] is exact;
    - a callback is either a callable supplied by the application, known by
      its identity, or the closure [help_multi_rpc_along] that [queue_rpc]
      builds; what an application callable does is given by the
      [Environment], which may change every part of the [World], the loop
      included, may raise, and may fail to return;
    - an application callable is a function (or method), which has a
      [__name__], or an object without one, such as a [functools.partial]:
      the loop reads [callback.__name__] for its debug log before it calls
      an immediate item, an idler or a timed event, and that read raises
      [AttributeError] where there is no such attribute;
    - an RPC object is known by its handle (object identity); its [state]
      property and its private [__done] attribute live in the [World];
    - the clock is [_Clock]: [now] reads the time kept in the [World] and
      [sleep] moves it on by the seconds asked for or more ([time.sleep]
      sleeps at least that long; how much more is up to the [Environment]);
      callbacks and [wait_any] may move it too;
    - statements that raise return [Raise] with the world as it was at the
      raise; [Diverge] stands for a computation that does not return, or
      that was cut short by the bound given to a loop. *)

From Stdlib Require Import ZArith Lia.
From stdpp Require Import base strings list sorting gmap.

Local Open Scope Z_scope.

(** ** Data *)

Definition handle := positive.
Definition args_t := list Z.
Definition kwds_t := list (string * Z).

(** Modelled from the spec: the constants [RPC.IDLE], [RPC.RUNNING] and
    [RPC.FINISHING] of [apiproxy_rpc], the enumeration
    {NotDispatched, Running, Finishing} of the operation-state observer. *)
Inductive rpc_state := IDLE | RUNNING | FINISHING.

(** A callable: one of the application's, either a function, which has a
    [__name__] ([Callable]), or an object that can be called and has none
    ([Nameless]); or the closure
    [help_multi_rpc_along(r=rpc, c=callback, a=args, k=kwds)].  The loop
    only ever calls the closure with the empty tuple and dict stored next to
    it, so its four parameters keep their default values. *)
#[warnings="-register-all"]
Inductive callback :=
| Callable (f : nat)
| Nameless (f : nat)
| help_multi_rpc_along (r : handle) (c : option callback) (a : args_t) (k : kwds_t).

(** [(callback, args, kwds)] and [(when, callback, args, kwds)]. *)
Definition item := (callback * args_t * kwds_t)%type.
Definition event := (Z * callback * args_t * kwds_t)%type.
Abbreviation rpc_entry := (option callback * args_t * kwds_t)%type.

Definition deadline (e : event) : Z := e.1.1.1.
Definition event_item (e : event) : item := (e.1.1.2, e.1.2, e.2).

(** The argument of [queue_rpc]: a plain RPC, or a [datastore_rpc.MultiRpc]
    with its [rpcs]. *)
Inductive rpc :=
| UserRPC (h : handle)
| MultiRpc (h : handle) (subs : list handle).

Definition rpc_handle (r : rpc) : handle :=
  match r with UserRPC h => h | MultiRpc h _ => h end.

(** The fields of [EventLoop.__init__] (the clock is in the [World]). *)
Record EventLoop := mkLoop {
  current : list item;
  idlers : list item;
  inactive : nat;
  queue : list event;
  rpcs : gmap handle rpc_entry
}.

Definition call_record := (nat * args_t * kwds_t)%type.

(** Everything a statement can read or write.  [calls] is a ghost log of the
    application callables the loop has called, in order; only [invoke] writes
    it. *)
Record World := mkWorld {
  ev : EventLoop;
  clock_now : Z;
  rpc_state_of : handle -> rpc_state;
  done : gmap handle bool;
  heap : list Z;
  calls : list call_record
}.

Inductive exn :=
| RuntimeError | ValueError | IndexError | TypeError | AttributeError
| AppError (code : nat).

Inductive result (A : Type) :=
| Ok (a : A) (w : World)
| Raise (e : exn) (w : World)
| Diverge.
Arguments Ok {A} a w.
Arguments Raise {A} e w.
Arguments Diverge {A}.

Definition M (A : Type) := World -> result A.

Definition ret {A} (a : A) : M A := fun w => Ok a w.

Definition bind {A B} (m : M A) (f : A -> M B) : M B :=
  fun w => match m w with
           | Ok a w' => f a w'
           | Raise e w' => Raise e w'
           | Diverge => Diverge
           end.

Notation "x <- m ;; k" := (bind m (fun x => k))
  (at level 100, m at next level, right associativity).
Notation "m ;;; k" := (bind m (fun _ => k))
  (at level 100, right associativity).

(** What the loop asks of its surroundings: the behaviour of application
    callables (a result of [None] is Python's [None], [Some b] the truth
    value of any other result), [datastore_rpc.MultiRpc.wait_any], and by
    how much [time.sleep] overruns the seconds it is asked to sleep. *)
Class Environment := {
  apply_callable : nat -> args_t -> kwds_t -> M (option bool);
  wait_any : M (option handle);
  oversleep : Z -> World -> nat
}.

(** ** Field updates *)

Definition set_current (l : list item) (e : EventLoop) : EventLoop :=
  mkLoop l (idlers e) (inactive e) (queue e) (rpcs e).
Definition set_idlers (l : list item) (e : EventLoop) : EventLoop :=
  mkLoop (current e) l (inactive e) (queue e) (rpcs e).
Definition set_inactive (n : nat) (e : EventLoop) : EventLoop :=
  mkLoop (current e) (idlers e) n (queue e) (rpcs e).
Definition set_queue (q : list event) (e : EventLoop) : EventLoop :=
  mkLoop (current e) (idlers e) (inactive e) q (rpcs e).
Definition set_rpcs (m : gmap handle rpc_entry) (e : EventLoop) : EventLoop :=
  mkLoop (current e) (idlers e) (inactive e) (queue e) m.

Definition with_ev (f : EventLoop -> EventLoop) (w : World) : World :=
  mkWorld (f (ev w)) (clock_now w) (rpc_state_of w) (done w) (heap w) (calls w).
Definition set_clock (t : Z) (w : World) : World :=
  mkWorld (ev w) t (rpc_state_of w) (done w) (heap w) (calls w).
Definition set_rpc_state (s : handle -> rpc_state) (w : World) : World :=
  mkWorld (ev w) (clock_now w) s (done w) (heap w) (calls w).
Definition set_done (h : handle) (b : bool) (w : World) : World :=
  mkWorld (ev w) (clock_now w) (rpc_state_of w) (<[h:=b]> (done w)) (heap w) (calls w).
Definition set_calls (l : list call_record) (w : World) : World :=
  mkWorld (ev w) (clock_now w) (rpc_state_of w) (done w) (heap w) l.

(** The environment cannot write the ghost log. *)
Definition relog {A} (l : list call_record) (r : result A) : result A :=
  match r with
  | Ok a w => Ok a (set_calls l w)
  | Raise e w => Raise e (set_calls l w)
  | Diverge => Diverge
  end.

Definition is_finishing (s : rpc_state) : bool :=
  match s with FINISHING => true | _ => false end.

(** ** Calling a callback with its stored arguments

    For the closure, which ends by calling [c] with [a] and [k]:
<<
    if r.state == _FINISHING and not r.__done:
      r.__done = True
>> *)
Fixpoint invoke `{Environment} (cb : callback) (args : args_t) (kwds : kwds_t)
    (w : World) : result (option bool) :=
  match cb with
  | Callable f | Nameless f =>
      relog (calls w ++ [(f, args, kwds)]) (apply_callable f args kwds w)
  | help_multi_rpc_along r c a k =>
      if is_finishing (rpc_state_of w r) then
        match done w !! r with
        | None => Raise AttributeError w
        | Some true => Ok None w
        | Some false =>
            let w1 := set_done r true w in
            match c with
            | Some c' =>
                match invoke c' a k w1 with
                | Ok _ w2 => Ok None w2
                | Raise e w2 => Raise e w2
                | Diverge => Diverge
                end
            | None => Raise TypeError w1
            end
        end
      else Ok None w
  end.

(** [callback.__name__] can be read. *)
Definition has_name (cb : callback) : bool :=
  match cb with
  | Nameless _ => false
  | Callable _ | help_multi_rpc_along _ _ _ _ => true
  end.

(** The debug log of the callback's name, then the call:
<<
    _logging_debug('nowevent: %s', callback.__name__)
>>
    The argument is evaluated whether or not anything is logged. *)
Definition log_and_call `{Environment} (cb : callback) (args : args_t)
    (kwds : kwds_t) : M (option bool) :=
  fun w => if has_name cb then invoke cb args kwds w else Raise AttributeError w.

(** ** [insort_event_right] *)

Inductive search := Found (i : Z) | OutOfRange | Exhausted.

(** The [while lo < hi] loop; [n] bounds the number of iterations. *)
Fixpoint bisect (n : nat) (q : list event) (t : Z) (lo hi : Z) : search :=
  if lo <? hi then
    match n with
    | O => Exhausted
    | S n' =>
        let mid := (lo + hi) `div` 2 in
        match q !! Z.to_nat mid with
        | None => OutOfRange
        | Some e =>
            if t <? deadline e then bisect n' q t lo mid
            else bisect n' q t (mid + 1) hi
        end
    end
  else Found lo.

(** [list.insert(i, x)] for [0 <= i]. *)
Definition list_insert_at {A} (i : Z) (x : A) (l : list A) : list A :=
  take (Z.to_nat i) l ++ x :: drop (Z.to_nat i) l.

Definition insort_event_right (e : event) (lo : Z) (hi : option Z) : M unit :=
  fun w =>
    if lo <? 0 then Raise ValueError w
    else
      let q := queue (ev w) in
      let hi := match hi with None => Z.of_nat (length q) | Some h => h end in
      match bisect (Z.to_nat (hi - lo)) q (deadline e) lo hi with
      | Found i => Ok tt (with_ev (set_queue (list_insert_at i e q)) w)
      | OutOfRange => Raise IndexError w
      | Exhausted => Diverge
      end.

(** ** Registration *)

Definition threshold : Z := 1000000000.

Definition queue_call (delay : option Z) (cb : callback) (args : args_t)
    (kwds : kwds_t) : M unit :=
  fun w =>
    match delay with
    | None =>
        Ok tt (with_ev (fun e => set_current (current e ++ [(cb, args, kwds)]) e) w)
    | Some d =>
        let when := if d <? threshold then d + clock_now w else d in
        insort_event_right (when, cb, args, kwds) 0 None w
    end.

(** [for rpc in rpcs: self.rpcs[rpc] = (callback, args, kwds)] *)
Definition register (hs : list handle) (entry : rpc_entry) (w : World) : World :=
  with_ev (fun e => set_rpcs (foldl (fun m h => <[h:=entry]> m) (rpcs e) hs) e) w.

Definition queue_rpc (r : option rpc) (cb : option callback) (args : args_t)
    (kwds : kwds_t) : M unit :=
  fun w =>
    match r with
    | None => Ok tt w
    | Some r =>
        match rpc_state_of w (rpc_handle r) with
        | IDLE => Raise RuntimeError w
        | _ =>
            match r with
            | MultiRpc h subs =>
                if (1 <? length subs)%nat then
                  let w1 := set_done h false w in
                  Ok tt (register subs
                           (Some (help_multi_rpc_along h cb args kwds), [], []) w1)
                else Ok tt (register subs (cb, args, kwds) w)
            | UserRPC h => Ok tt (register [h] (cb, args, kwds) w)
            end
        end
    end.

Definition add_idle (cb : callback) (args : args_t) (kwds : kwds_t) : M unit :=
  fun w => Ok tt (with_ev (fun e => set_idlers (idlers e ++ [(cb, args, kwds)]) e) w).

(** ** Running *)

Definition run_idle `{Environment} : M bool :=
  fun w =>
    match idlers (ev w) with
    | [] => Ok false w
    | idler :: rest =>
        if (length (idlers (ev w)) <=? inactive (ev w))%nat then Ok false w
        else
          let w1 := with_ev (set_idlers rest) w in
          match log_and_call idler.1.1 idler.1.2 idler.2 w1 with
          | Ok (Some res) w2 =>
              let w3 :=
                with_ev (fun e => set_inactive (if res then O else S (inactive e)) e) w2 in
              Ok true (with_ev (fun e => set_idlers (idlers e ++ [idler]) e) w3)
          | Ok None w2 => Ok true w2
          | Raise e w2 => Raise e w2
          | Diverge => Diverge
          end
    end.

(** Lines 255-261 of [run0]: the completed RPC's entry is looked up, removed
    and its callback, if any, called. *)
Definition complete_rpc `{Environment} (r : handle) : M unit :=
  fun w =>
    match rpcs (ev w) !! r with
    | None => Raise RuntimeError w
    | Some (cb, args, kwds) =>
        let w1 := with_ev (fun e => set_rpcs (delete r (rpcs e)) e) w in
        match cb with
        | Some c => (invoke c args kwds ;;; ret tt) w1
        | None => Ok tt w1
        end
    end.

Definition dict_nonempty {V} (m : gmap handle V) : bool :=
  negb (bool_decide (dom m = ∅)).

(** Lines 250-261 of [run0]: wait, then complete the RPC returned, if any. *)
Definition wait_and_complete `{Environment} : M unit :=
  r <- (fun w => relog (calls w) (wait_any w)) ;;
  match r with
  | Some h => complete_rpc h
  | None => ret tt
  end.

(** Lines 248-264 of [run0]: wait for an RPC if there is one, else report
    the delay computed from the timer queue. *)
Definition run0_rpcs `{Environment} (delay : option Z) : M (option Z) :=
  fun w =>
    if dict_nonempty (rpcs (ev w)) then
      (wait_and_complete ;;; ret (Some 0)) (with_ev (set_inactive O) w)
    else Ok delay w.

(** Lines 238-247 of [run0]: the timer queue. *)
Definition run0_timers `{Environment} : M (option Z) :=
  fun w =>
    match queue (ev w) with
    | [] => run0_rpcs None w
    | (t, cb, args, kwds) :: rest =>
        let delay := t - clock_now w in
        if delay <=? 0 then
          (log_and_call cb args kwds ;;; ret (Some 0))
            (with_ev (fun e => set_queue rest (set_inactive O e)) w)
        else run0_rpcs (Some delay) w
    end.

Definition run0 `{Environment} : M (option Z) :=
  fun w =>
    match current (ev w) with
    | (cb, args, kwds) :: rest =>
        (log_and_call cb args kwds ;;; ret (Some 0))
          (with_ev (fun e => set_current rest (set_inactive O e)) w)
    | [] =>
        (ran <- run_idle ;;
         if ran : bool then ret (Some 0) else run0_timers) w
    end.

(** [_Clock.sleep] is [time.sleep]: when it returns the clock has advanced
    by [seconds] or more, and nothing else has changed. *)
Definition sleep `{Environment} (seconds : Z) : M unit :=
  fun w =>
    Ok tt (set_clock (clock_now w + seconds + Z.of_nat (oversleep seconds w)) w).

Definition run1 `{Environment} : M bool :=
  delay <- run0 ;;
  match delay with
  | None => ret false
  | Some d => (if 0 <? d then sleep d else ret tt) ;;; ret true
  end.

(** [while True: if not self.run1(): break], at most [n] iterations. *)
Fixpoint run_loop `{Environment} (n : nat) : M unit :=
  match n with
  | O => fun _ => Diverge
  | S n' => more <- run1 ;; if more : bool then run_loop n' else ret tt
  end.

Definition run `{Environment} (n : nat) : M unit :=
  fun w => run_loop n (with_ev (set_inactive O) w).

(** ** Predicates used by the statements *)

Definition le_deadline (a b : event) : Prop := deadline a <= deadline b.

(** The timer queue is in nondecreasing order of deadline. *)
Definition sorted_by_deadline (q : list event) : Prop :=
  StronglySorted le_deadline q.

(** [run_idle] would call an idler: there is one, and not every idler has
    reported "no work" since the counter was last reset. *)
Definition idle_runnable (e : EventLoop) : Prop :=
  (inactive e < length (idlers e))%nat.

(** The head of the timer queue is due. *)
Definition timer_due (w : World) : Prop :=
  match queue (ev w) with
  | e :: _ => deadline e <= clock_now w
  | [] => False
  end.

(** The world a result carries, if it carries one. *)
Definition world_of {A} (r : result A) : option World :=
  match r with Ok _ w | Raise _ w => Some w | Diverge => None end.

Definition returns {A} (r : result A) : Prop :=
  match r with Diverge => False | _ => True end.

(** An application callable that returns and leaves the loop's five fields
    as they are. *)
Definition quiet `{Environment} (f : nat) (a : args_t) (k : kwds_t) : Prop :=
  forall w, exists v w', apply_callable f a k w = Ok v w' /\ ev w' = ev w.

(** An item whose callback is such a callable, has a [__name__], and
    reports "no work" ([False]). *)
Definition reports_no_work `{Environment} (it : item) : Prop :=
  exists f, it.1.1 = Callable f /\
    forall w, exists w', apply_callable f it.1.2 it.2 w = Ok (Some false) w' /\
                         ev w' = ev w.

Definition item_call (it : item) : list call_record :=
  match it.1.1 with
  | Callable f | Nameless f => [(f, it.1.2, it.2)]
  | help_multi_rpc_along _ _ _ _ => []
  end.

(** Surroundings under which the queues can only shrink: a callable that
    returns leaves the loop's fields alone and does not report idle work,
    and [wait_any], given a non-empty table, returns an RPC (or raises)
    without touching the loop. *)
Definition settles `{Environment} : Prop :=
  (forall f a k w,
      match apply_callable f a k w with
      | Ok v w' => ev w' = ev w /\ v <> Some true
      | Raise _ _ => True
      | Diverge => False
      end) /\
  (forall w, rpcs (ev w) <> ∅ ->
      match wait_any w with
      | Ok (Some _) w' => ev w' = ev w
      | Ok None _ => False
      | Raise _ _ => True
      | Diverge => False
      end).

(** What [run] leaves behind when it returns. *)
Definition at_rest (e : EventLoop) : Prop :=
  current e = [] /\ queue e = [] /\ rpcs e = ∅ /\
  (length (idlers e) <= inactive e)%nat.

(** Events queued one after the other, each with the default bounds, as
    [queue_call] does once it has computed the deadline. *)
Fixpoint queue_events (es : list event) : M unit :=
  match es with
  | [] => ret tt
  | e :: es' => insort_event_right e 0 None ;;; queue_events es'
  end.

(** An event whose callback is a quiet application callable with a
    [__name__]. *)
Definition quiet_event `{Environment} (e : event) : Prop :=
  exists f, e.1.1.2 = Callable f /\ quiet f e.1.2 e.2.

(** The RPC branch of [run0] replayed for a given order of completions:
    before each one the surroundings have moved the RPC states on. *)
Fixpoint complete_each `{Environment}
    (steps : list (handle * (handle -> rpc_state))) : M unit :=
  match steps with
  | [] => ret tt
  | (h, st) :: rest =>
      fun w => (complete_rpc h ;;; complete_each rest) (set_rpc_state st w)
  end.

(** Induction over callbacks that reaches the callable inside a closure. *)
Fixpoint callback_nested_ind (P : callback -> Prop)
    (Hcall : forall f, P (Callable f))
    (Hless : forall f, P (Nameless f))
    (Hnone : forall r a k, P (help_multi_rpc_along r None a k))
    (Hsome : forall r c a k, P c -> P (help_multi_rpc_along r (Some c) a k))
    (cb : callback) : P cb :=
  match cb with
  | Callable f => Hcall f
  | Nameless f => Hless f
  | help_multi_rpc_along r None a k => Hnone r a k
  | help_multi_rpc_along r (Some c) a k =>
      Hsome r c a k (callback_nested_ind P Hcall Hless Hnone Hsome c)
  end.

(** One call of a callback adds at most one entry to the log. *)
Definition logs_at_most_one {A} (w : World) (r : result A) : Prop :=
  forall w', world_of r = Some w' ->
    exists l, calls w' = calls w ++ l /\ (length l <= 1)%nat.

(** A callable that returns and leaves the table and the [__done] flags as
    they are. *)
Definition keeps_rpcs `{Environment} (f : nat) (a : args_t) (k : kwds_t) : Prop :=
  forall w, exists v w',
    apply_callable f a k w = Ok v w' /\ rpcs (ev w') = rpcs (ev w) /\
    done w' = done w.

Definition observed_finishing (h : handle)
    (steps : list (handle * (handle -> rpc_state))) : bool :=
  existsb (fun s => is_finishing (s.2 h)) steps.

(** The work left: every entry of the three queues, each followed by at
    most one round of the idlers, and the round under way. *)
Definition backlog (e : EventLoop) : nat :=
  ((length (current e) + length (queue e) + size (rpcs e)) * S (length (idlers e))
   + (length (idlers e) - inactive e))%nat.

(** One more step when the first timer is not yet due: the sleep. *)
Definition waiting (w : World) : nat :=
  match queue (ev w) with
  | [] => O
  | e :: _ => if deadline e <=? clock_now w then O else 1%nat
  end.

Definition work_left (w : World) : nat := (2 * backlog (ev w) + waiting w)%nat.

Definition progress {A} (w : World) (r : result A) : Prop :=
  match r with
  | Ok _ w' => (2 * backlog (ev w') + 2 <= 2 * backlog (ev w))%nat
  | Raise _ _ => True
  | Diverge => False
  end.

(** The five fields of the loop, side by side. *)
Definition loop_fields (e : EventLoop) :
    list item * list item * nat * list event * gmap handle rpc_entry :=
  (current e, idlers e, inactive e, queue e, rpcs e).

(** [r] is what a step makes of the call [called]: it returns 0 in the
    world the call left, or raises what the call raised. *)
Definition zero_after {A} (called : result A) (r : result (option Z)) : Prop :=
  match called with
  | Ok _ w' => r = Ok (Some 0) w'
  | Raise x w' => r = Raise x w'
  | Diverge => r = Diverge
  end.

(** ** Concrete surroundings for the examples

    Callable 0 reports "no work", callable 2 raises, every other callable
    returns [None]; each leaves its number in the heap.  [wait_any] returns
    the first RPC of the table, now finished. *)
Definition note (f : nat) (w : World) : World :=
  mkWorld (ev w) (clock_now w) (rpc_state_of w) (done w)
          (heap w ++ [Z.of_nat f]) (calls w).

Definition demo_apply (f : nat) (a : args_t) (k : kwds_t) : M (option bool) :=
  fun w =>
    match f with
    | 0%nat => Ok (Some false) (note f w)
    | 2%nat => Raise (AppError 2) (note f w)
    | _ => Ok None (note f w)
    end.

Definition demo_wait_any : M (option handle) :=
  fun w =>
    match map_to_list (rpcs (ev w)) with
    | [] => Ok None w
    | (h, _) :: _ =>
        Ok (Some h)
           (set_rpc_state
              (fun x => if decide (x = h) then FINISHING else rpc_state_of w x) w)
    end.

Definition demo_env : Environment :=
  {| apply_callable := demo_apply; wait_any := demo_wait_any;
     oversleep := fun _ _ => O |}.

(** A faulty waiter: it returns an RPC nobody registered. *)
Definition rogue_env : Environment :=
  {| apply_callable := demo_apply; wait_any := fun w => Ok (Some 99%positive) w;
     oversleep := fun _ _ => O |}.

Definition empty_loop : EventLoop := mkLoop [] [] O [] ∅.

Definition fresh : World :=
  mkWorld empty_loop 100 (fun _ => RUNNING) ∅ [] [].

(** One idler that has already reported "no work". *)
Definition backed_off : World :=
  with_ev (fun e => set_inactive 1 (set_idlers [(Callable 0, [], [])] e)) fresh.

(** One pending RPC. *)
Definition one_pending : World :=
  with_ev (set_rpcs {[ 1%positive := (Some (Callable 5), [], []) ]}) fresh.

(** A composite RPC 10 over the RPCs 1, 2 and 3, registered with callable 5;
    2 and 1 complete while the composite is still running, 3 completes it. *)
Definition composite_registered : World :=
  register [1; 2; 3]%positive
    (Some (help_multi_rpc_along 10%positive (Some (Callable 5)) [4] []), [], [])
    (set_done 10%positive false fresh).

Definition fan_in : list (handle * (handle -> rpc_state)) :=
  [(2%positive, fun _ => RUNNING); (1%positive, fun _ => RUNNING);
   (3%positive, fun _ => FINISHING)].

Definition cb0 : item := (Callable 0, [], []).

(** Work of all four kinds at once. *)
Definition busy : World :=
  with_ev (fun _ =>
    mkLoop [(Callable 1, [7], [])] [(Callable 0, [], [])] O
           [(105, Callable 5, [], [])]
           {[ 1%positive := (Some (Callable 6), [], []) ]}) fresh.
Definition cb2 : item := (Callable 2, [], []).

(** ** The rest of the module *)

(** The test of [clear]'s loop: one of the four containers is not empty. *)
Definition pending (e : EventLoop) : bool :=
  match current e, idlers e, queue e with
  | [], [], [] => dict_nonempty (rpcs e)
  | _, _, _ => true
  end.

(** [clear]: while something is pending, [self.__init__()] gives the loop
    four new empty containers and a counter of 0 (and a [_Clock]); the
    containers it then empties are the old ones, which the loop no longer
    holds.  [n] bounds the number of iterations. *)
Fixpoint clear (n : nat) : M unit :=
  fun w =>
    if pending (ev w) then
      match n with
      | O => Diverge
      | S n' => clear n' (with_ev (fun _ => empty_loop) w)
      end
    else Ok tt w.

(** The loops created in one context, known by their identity (the place in
    [loops]), the value of the context variable [_EVENT_LOOP] ([None] while
    it was never set, [Some None] once it was set to [None]) and the token
    kept in [_TESTBED_RESET_TOKEN], which remembers the value replaced. *)
Record Context := mkContext {
  loops : list EventLoop;
  event_loop_var : option (option nat);
  testbed_reset_token : option (option (option nat))
}.

Definition _set_event_loop (loop : option nat) (c : Context) : Context :=
  mkContext (loops c) (Some loop)
    (match testbed_reset_token c with
     | None => Some (event_loop_var c)
     | Some t => Some t
     end).

(** [_EVENT_LOOP.get()], with the variable's default of [None]. *)
Definition event_loop_value (c : Context) : option nat :=
  match event_loop_var c with
  | Some v => v
  | None => None
  end.

Definition get_event_loop (c : Context) : nat * Context :=
  match event_loop_value c with
  | Some i => (i, c)
  | None =>
      let i := length (loops c) in
      (i, _set_event_loop (Some i)
            (mkContext (loops c ++ [empty_loop]) (event_loop_var c)
                       (testbed_reset_token c)))
  end.


(** An item whose callback is a quiet application callable with a
    [__name__]. *)
Definition quiet_item `{Environment} (it : item) : Prop :=
  exists f, it.1.1 = Callable f /\ quiet f it.1.2 it.2.

(** An idler with a [__name__] that always reports work ([True]) and
    leaves the loop's fields as they are. *)
Definition reports_work `{Environment} (it : item) : Prop :=
  exists f, it.1.1 = Callable f /\
    forall w, exists w', apply_callable f it.1.2 it.2 w = Ok (Some true) w' /\
                         ev w' = ev w.

(** As [demo_env], but callable 3 reports work whenever it is called. *)
Definition eager_env : Environment :=
  {| apply_callable := fun f a k w =>
       match f with
       | 3%nat => Ok (Some true) (note f w)
       | _ => demo_apply f a k w
       end;
     wait_any := demo_wait_any;
     oversleep := fun _ _ => O |}.

(** As [demo_env], but every sleep lasts two seconds longer than asked. *)
Definition slow_env : Environment :=
  {| apply_callable := demo_apply; wait_any := demo_wait_any;
     oversleep := fun _ _ => 2%nat |}.

(** As [demo_env], but callable 8 queues a call of callable 5 on the
    loop. *)
Definition chain_env : Environment :=
  {| apply_callable := fun f a k w =>
       match f with
       | 8%nat => (queue_call None (Callable 5) [1] [] ;;; ret None) (note f w)
       | _ => demo_apply f a k w
       end;
     wait_any := demo_wait_any;
     oversleep := fun _ _ => O |}.

Definition chained : World :=
  with_ev (set_current [(Callable 8, [], [])]) fresh.

(** [n] steps of [run1], as long as each reports that something happened. *)
Fixpoint run1_times `{Environment} (n : nat) : M bool :=
  match n with
  | O => ret true
  | S n' => more <- run1 ;; if more : bool then run1_times n' else ret false
  end.

(** The identity of an application callable. *)
Definition callable_id (cb : callback) : option nat :=
  match cb with
  | Callable f | Nameless f => Some f
  | help_multi_rpc_along _ _ _ _ => None
  end.

(** * Properties *)

(** ** Binary search *)

Lemma midpoint lo hi : lo < hi -> lo <= (lo + hi) `div` 2 < hi.
Proof.
  intros Hlt. split.
  - apply Z.div_le_lower_bound; lia.
  - apply Z.div_lt_upper_bound; lia.
Qed.

(** The bound on the iterations is never what ends the search. *)
Lemma bisect_not_exhausted n q t lo hi :
  hi - lo <= Z.of_nat n -> bisect n q t lo hi <> Exhausted.
Proof.
  revert lo hi. induction n as [|n IH]; intros lo hi Hn; simpl.
  - destruct (Z.ltb_spec lo hi); [lia|done].
  - destruct (Z.ltb_spec lo hi) as [Hlt|Hge]; [|done].
    pose proof (midpoint lo hi Hlt) as Hmid.
    destruct (q !! Z.to_nat ((lo + hi) `div` 2)) as [e|]; [|done].
    destruct (t <? deadline e); apply IH; lia.
Qed.

Lemma insort_event_right_returns e lo hi w :
  returns (insort_event_right e lo hi w).
Proof.
  unfold insort_event_right. destruct (lo <? 0); [done|].
  match goal with
  | |- context [bisect ?n ?q ?t ?l ?h] =>
      pose proof (bisect_not_exhausted n q t l h) as Hb;
      destruct (bisect n q t l h); try done
  end.
  apply Hb; [lia|done].
Qed.

(** With bounds inside the list the search ends, whatever the list holds. *)
Lemma bisect_total n q t lo hi :
  0 <= lo -> hi <= Z.of_nat (length q) -> hi - lo <= Z.of_nat n ->
  exists i, bisect n q t lo hi = Found i /\ lo <= i /\ (i <= hi \/ i = lo).
Proof.
  revert lo hi. induction n as [|n IH]; intros lo hi Hlo Hhi Hn; simpl.
  - destruct (Z.ltb_spec lo hi); [lia|]. exists lo. split; [done|lia].
  - destruct (Z.ltb_spec lo hi) as [Hlt|Hge]; [|exists lo; split; [done|lia]].
    pose proof (midpoint lo hi Hlt) as Hmid.
    destruct (lookup_lt_is_Some_2 q (Z.to_nat ((lo + hi) `div` 2))) as [e ->];
      [lia|].
    destruct (t <? deadline e).
    + destruct (IH lo ((lo + hi) `div` 2)) as (i & -> & ?); [lia..|].
      exists i. split; [done|lia].
    + destruct (IH ((lo + hi) `div` 2 + 1) hi) as (i & -> & ?); [lia..|].
      exists i. split; [done|lia].
Qed.

Lemma sorted_lookup q i j a b :
  sorted_by_deadline q -> (i <= j)%nat ->
  q !! i = Some a -> q !! j = Some b -> deadline a <= deadline b.
Proof.
  intros Hs. revert i j. induction Hs as [|x l Hs IH Hall]; intros i j Hij Hi Hj.
  - done.
  - destruct i as [|i], j as [|j]; simpl in *; simplify_eq; try lia.
    + eapply Forall_lookup_1 in Hall; [exact Hall|exact Hj].
    + eapply IH; [|exact Hi|exact Hj]. lia.
Qed.

(** On a sorted list the search returns the place right of every event
    whose deadline is [t] or earlier. *)
Lemma bisect_sorted n q t lo hi :
  sorted_by_deadline q ->
  0 <= lo <= hi -> hi <= Z.of_nat (length q) -> hi - lo <= Z.of_nat n ->
  (forall j e, (Z.of_nat j < lo) -> q !! j = Some e -> deadline e <= t) ->
  (forall j e, (hi <= Z.of_nat j) -> q !! j = Some e -> t < deadline e) ->
  exists i, bisect n q t lo hi = Found i /\ 0 <= i <= Z.of_nat (length q) /\
    (forall j e, (Z.of_nat j < i) -> q !! j = Some e -> deadline e <= t) /\
    (forall j e, (i <= Z.of_nat j) -> q !! j = Some e -> t < deadline e).
Proof.
  intros Hs. revert lo hi.
  induction n as [|n IH]; intros lo hi Hlo Hhi Hn Hl Hr; simpl.
  - destruct (Z.ltb_spec lo hi); [lia|]. exists lo.
    split; [done|]. split; [lia|]. split; [done|].
    intros j e Hj. apply Hr. lia.
  - destruct (Z.ltb_spec lo hi) as [Hlt|Hge].
    2:{ exists lo. split; [done|]. split; [lia|]. split; [done|].
        intros j e Hj. apply Hr. lia. }
    pose proof (midpoint lo hi Hlt) as Hmid.
    destruct (lookup_lt_is_Some_2 q (Z.to_nat ((lo + hi) `div` 2))) as [e He];
      [lia|].
    rewrite He. destruct (Z.ltb_spec t (deadline e)) as [Hte|Hte].
    + apply IH; [lia..|done|].
      intros j e' Hj He'. eapply Z.lt_le_trans; [exact Hte|].
      eapply sorted_lookup; [done| |exact He|exact He']. lia.
    + apply IH; [lia..| |done].
      intros j e' Hj He'. eapply Z.le_trans; [|exact Hte].
      eapply sorted_lookup; [done| |exact He'|exact He]. lia.
Qed.

(** ** [insort_event_right] with its default bounds *)

Lemma insort_default_total e w :
  exists i, (i <= length (queue (ev w)))%nat /\
    insort_event_right e 0 None w =
      Ok tt (with_ev (set_queue (take i (queue (ev w)) ++ e :: drop i (queue (ev w)))) w).
Proof.
  unfold insort_event_right. simpl.
  destruct (bisect_total (Z.to_nat (Z.of_nat (length (queue (ev w))) - 0))
              (queue (ev w)) (deadline e) 0 (Z.of_nat (length (queue (ev w)))))
    as (i & -> & Hi); [lia..|].
  exists (Z.to_nat i). split; [lia|]. reflexivity.
Qed.

Lemma insort_default_sorted e w :
  sorted_by_deadline (queue (ev w)) ->
  exists l1 l2,
    queue (ev w) = l1 ++ l2 /\
    insort_event_right e 0 None w = Ok tt (with_ev (set_queue (l1 ++ e :: l2)) w) /\
    Forall (fun x => deadline x <= deadline e) l1 /\
    Forall (fun x => deadline e < deadline x) l2 /\
    sorted_by_deadline (l1 ++ e :: l2).
Proof.
  intros Hs. unfold insort_event_right. simpl.
  destruct (bisect_sorted (Z.to_nat (Z.of_nat (length (queue (ev w))) - 0))
              (queue (ev w)) (deadline e) 0 (Z.of_nat (length (queue (ev w)))) Hs)
    as (i & -> & Hi & Hl & Hr); [lia..| | |].
  { intros j x Hj. lia. }
  { intros j x Hj Hx. apply lookup_lt_Some in Hx. lia. }
  set (q := queue (ev w)) in *.
  assert (Forall (fun x => deadline x <= deadline e) (take (Z.to_nat i) q)) as H1.
  { apply Forall_lookup_2. intros j x Hx.
    apply lookup_take_Some in Hx as [Hx Hj]. eapply Hl; [|exact Hx]. lia. }
  assert (Forall (fun x => deadline e < deadline x) (drop (Z.to_nat i) q)) as H2.
  { apply Forall_lookup_2. intros j x Hx. rewrite lookup_drop in Hx.
    eapply Hr; [|exact Hx]. lia. }
  exists (take (Z.to_nat i) q), (drop (Z.to_nat i) q).
  split; [by rewrite take_drop|]. split; [reflexivity|].
  split; [done|]. split; [done|].
  rewrite <- (take_drop (Z.to_nat i) q) in Hs.
  apply StronglySorted_app in Hs as (Hx & Hs1 & Hs2).
  apply StronglySorted_app_2; [|done|].
  - intros x1 x2 Hx1 Hx2. apply elem_of_cons in Hx2 as [->|Hx2].
    + rewrite Forall_forall in H1. by apply H1.
    + by apply Hx.
  - apply SSorted_cons; [done|].
    eapply Forall_impl; [exact H2|]. intros x Hx'. unfold le_deadline. simpl in Hx'. lia.
Qed.

(** ** Calling callbacks *)

Lemma logs_none {A} (w w' : World) (r : result A) :
  world_of r = Some w' -> calls w' = calls w -> logs_at_most_one w r.
Proof.
  intros Hr Hc w'' Hw. rewrite Hr in Hw. injection Hw as <-.
  exists []. rewrite app_nil_r. split; [done|simpl; lia].
Qed.

Lemma invoke_logs `{Environment} cb a k w :
  logs_at_most_one w (invoke cb a k w).
Proof.
  revert a k w.
  induction cb as [f|f|r a' k'|r c a' k' IH] using callback_nested_ind;
    intros a k w; simpl.
  - intros w' Hw. exists [(f, a, k)]. split; [|simpl; lia].
    destruct (apply_callable f a k w); simpl in Hw; simplify_eq; done.
  - intros w' Hw. exists [(f, a, k)]. split; [|simpl; lia].
    destruct (apply_callable f a k w); simpl in Hw; simplify_eq; done.
  - destruct (is_finishing _); [|by eapply logs_none].
    destruct (done w !! r) as [[]|]; by eapply logs_none.
  - destruct (is_finishing _); [|by eapply logs_none].
    destruct (done w !! r) as [[]|]; try by eapply logs_none.
    intros w' Hw. apply (IH a' k' (set_done r true w)).
    destruct (invoke c a' k' (set_done r true w)); done.
Qed.

Lemma log_and_call_named `{Environment} cb a k w :
  has_name cb = true -> log_and_call cb a k w = invoke cb a k w.
Proof. unfold log_and_call. by intros ->. Qed.

Lemma log_and_call_nameless `{Environment} f a k w :
  log_and_call (Nameless f) a k w = Raise AttributeError w.
Proof. reflexivity. Qed.

Lemma log_and_call_logs `{Environment} cb a k w :
  logs_at_most_one w (log_and_call cb a k w).
Proof.
  unfold log_and_call. destruct (has_name cb); [apply invoke_logs|].
  by eapply logs_none.
Qed.

(** ** [run_idle] *)

Lemma run_idle_blocked `{Environment} w :
  (length (idlers (ev w)) <= inactive (ev w))%nat -> run_idle w = Ok false w.
Proof.
  intros Hle. unfold run_idle.
  destruct (idlers (ev w)) as [|it rest]; [done|].
  destruct (Nat.leb_spec (length (it :: rest)) (inactive (ev w))); [done|lia].
Qed.

Lemma run_idle_runs `{Environment} w it rest :
  idlers (ev w) = it :: rest -> idle_runnable (ev w) ->
  run_idle w =
    match log_and_call it.1.1 it.1.2 it.2 (with_ev (set_idlers rest) w) with
    | Ok (Some res) w2 =>
        Ok true
           (with_ev (fun e => set_idlers (idlers e ++ [it]) e)
              (with_ev (fun e => set_inactive (if res then O else S (inactive e)) e) w2))
    | Ok None w2 => Ok true w2
    | Raise e w2 => Raise e w2
    | Diverge => Diverge
    end.
Proof.
  unfold idle_runnable, run_idle. intros Hi Hr. rewrite Hi in *.
  destruct (Nat.leb_spec (length (it :: rest)) (inactive (ev w))); [lia|done].
Qed.

Lemma run_idle_true `{Environment} w b w' :
  idle_runnable (ev w) -> run_idle w = Ok b w' -> b = true.
Proof.
  intros Hr. destruct (idlers (ev w)) as [|it rest] eqn:Hi.
  { unfold idle_runnable in Hr. rewrite Hi in Hr. simpl in Hr. lia. }
  rewrite (run_idle_runs w it rest Hi Hr).
  destruct (log_and_call _ _ _ _) as [[res|] w2|e w2|]; congruence.
Qed.

Lemma run_idle_logs `{Environment} w : logs_at_most_one w (run_idle w).
Proof.
  destruct (decide (idle_runnable (ev w))) as [Hr|Hr].
  - destruct (idlers (ev w)) as [|it rest] eqn:Hi.
    { unfold idle_runnable in Hr. rewrite Hi in Hr. simpl in Hr. lia. }
    rewrite (run_idle_runs w it rest Hi Hr).
    pose proof (log_and_call_logs it.1.1 it.1.2 it.2 (with_ev (set_idlers rest) w))
      as Hl.
    destruct (log_and_call _ _ _ _) as [[res|] w2|e w2|]; intros w' Hw; simpl in Hw;
      [..|done]; injection Hw as <-;
      destruct (Hl w2 eq_refl) as (l & Hc & Hlen); by exists l.
  - rewrite run_idle_blocked; [by eapply logs_none|].
    unfold idle_runnable in Hr. lia.
Qed.

(** ** [run0] *)

Lemma dict_nonempty_true {V} (m : gmap handle V) :
  dict_nonempty m = true <-> m <> ∅.
Proof.
  unfold dict_nonempty. rewrite negb_true_iff, bool_decide_eq_false.
  by rewrite dom_empty_iff_L.
Qed.

Lemma dict_nonempty_false {V} (m : gmap handle V) :
  dict_nonempty m = false <-> m = ∅.
Proof.
  unfold dict_nonempty. rewrite negb_false_iff, bool_decide_eq_true.
  by rewrite dom_empty_iff_L.
Qed.

Lemma run0_current `{Environment} w cb a k rest :
  current (ev w) = (cb, a, k) :: rest ->
  run0 w = (log_and_call cb a k ;;; ret (Some 0))
             (with_ev (fun e => set_current rest (set_inactive O e)) w).
Proof. unfold run0. by intros ->. Qed.

Lemma run0_idle `{Environment} w :
  current (ev w) = [] -> idle_runnable (ev w) ->
  run0 w = (run_idle ;;; ret (Some 0)) w.
Proof.
  unfold run0, bind. intros -> Hr.
  destruct (run_idle w) as [b w'|e w'|] eqn:Hi; [|done..].
  by rewrite (run_idle_true w b w' Hr Hi).
Qed.

Lemma run0_past_idle `{Environment} w :
  current (ev w) = [] -> ~ idle_runnable (ev w) -> run0 w = run0_timers w.
Proof.
  unfold run0, bind, idle_runnable. intros -> Hr.
  rewrite run_idle_blocked; [done|lia].
Qed.

Lemma run0_due `{Environment} w t cb a k rest :
  current (ev w) = [] -> ~ idle_runnable (ev w) ->
  queue (ev w) = (t, cb, a, k) :: rest -> t <= clock_now w ->
  run0 w = (log_and_call cb a k ;;; ret (Some 0))
             (with_ev (fun e => set_queue rest (set_inactive O e)) w).
Proof.
  intros Hc Hr Hq Ht. rewrite run0_past_idle by done.
  unfold run0_timers. rewrite Hq.
  destruct (Z.leb_spec (t - clock_now w) 0); [done|lia].
Qed.

Lemma run0_timers_not_due `{Environment} w :
  ~ timer_due w ->
  run0_timers w =
    run0_rpcs match queue (ev w) with
              | [] => None
              | e :: _ => Some (deadline e - clock_now w)
              end w.
Proof.
  unfold timer_due, run0_timers. intros Hd.
  destruct (queue (ev w)) as [|[[[t cb] a] k] rest]; [done|].
  unfold deadline in *. simpl in *.
  destruct (Z.leb_spec (t - clock_now w) 0); [lia|done].
Qed.

Lemma run0_rpc `{Environment} w :
  current (ev w) = [] -> ~ idle_runnable (ev w) -> ~ timer_due w ->
  rpcs (ev w) <> ∅ ->
  run0 w = (wait_and_complete ;;; ret (Some 0)) (with_ev (set_inactive O) w).
Proof.
  intros Hc Hr Hd Hp. rewrite run0_past_idle, run0_timers_not_due by done.
  unfold run0_rpcs. apply dict_nonempty_true in Hp. by rewrite Hp.
Qed.

Lemma run0_wait `{Environment} w e rest :
  current (ev w) = [] -> ~ idle_runnable (ev w) -> rpcs (ev w) = ∅ ->
  queue (ev w) = e :: rest -> clock_now w < deadline e ->
  run0 w = Ok (Some (deadline e - clock_now w)) w.
Proof.
  intros Hc Hr Hp Hq Ht. rewrite run0_past_idle, run0_timers_not_due; [|try done..].
  - unfold run0_rpcs. apply dict_nonempty_false in Hp. by rewrite Hp, Hq.
  - unfold timer_due. rewrite Hq. lia.
Qed.

Lemma run0_drained `{Environment} w :
  current (ev w) = [] -> ~ idle_runnable (ev w) -> rpcs (ev w) = ∅ ->
  queue (ev w) = [] -> run0 w = Ok None w.
Proof.
  intros Hc Hr Hp Hq. rewrite run0_past_idle, run0_timers_not_due; [|try done..].
  - unfold run0_rpcs. apply dict_nonempty_false in Hp. by rewrite Hp, Hq.
  - unfold timer_due. rewrite Hq. tauto.
Qed.

Lemma bind_ret_logs `{Environment} {A B} (m : M A) (b : B) w0 w :
  calls w = calls w0 -> logs_at_most_one w (m w) ->
  logs_at_most_one w0 ((m ;;; ret b) w).
Proof.
  unfold bind, ret. intros Hc Hl w' Hw. rewrite <- Hc.
  apply Hl. by destruct (m w).
Qed.

Lemma complete_rpc_logs `{Environment} h w : logs_at_most_one w (complete_rpc h w).
Proof.
  unfold complete_rpc.
  destruct (rpcs (ev w) !! h) as [[[[c|] a] k]|]; try by eapply logs_none.
  eapply bind_ret_logs; [done|]. apply invoke_logs.
Qed.

Lemma wait_and_complete_logs `{Environment} w :
  logs_at_most_one w (wait_and_complete w).
Proof.
  unfold wait_and_complete, bind.
  destruct (wait_any w) as [[h|] w1|e w1|]; simpl.
  - pose proof (complete_rpc_logs h (set_calls (calls w) w1)) as Hl.
    intros w' Hw. by apply Hl.
  - by eapply logs_none.
  - by eapply logs_none.
  - by intros w' Hw.
Qed.

Lemma run0_logs `{Environment} w : logs_at_most_one w (run0 w).
Proof.
  destruct (current (ev w)) as [|[[cb a] k] rest] eqn:Hc.
  2:{ rewrite (run0_current w cb a k rest Hc).
      eapply bind_ret_logs; [done|]. apply log_and_call_logs. }
  destruct (decide (idle_runnable (ev w))) as [Hr|Hr].
  { rewrite run0_idle by done. eapply bind_ret_logs; [done|]. apply run_idle_logs. }
  rewrite run0_past_idle by done. unfold run0_timers.
  assert (forall d, logs_at_most_one w (run0_rpcs d w)) as Hrpc.
  { intros d. unfold run0_rpcs. destruct (dict_nonempty _); [|by eapply logs_none].
    eapply bind_ret_logs; [done|]. apply wait_and_complete_logs. }
  destruct (queue (ev w)) as [|[[[t cb] a] k] rest]; [done|].
  destruct (_ <=? _); [|done].
  eapply bind_ret_logs; [done|]. apply log_and_call_logs.
Qed.

Lemma zero_after_bind {A} (m : M A) w :
  zero_after (m w) ((m ;;; ret (Some 0)) w).
Proof. unfold zero_after, bind, ret. by destruct (m w). Qed.

(** C1 (as amended): one call of [run0] does at most one unit of work, chosen
    in strict priority order; callbacks are taken to have a [__name__].
    With a non-empty immediate queue it resets the counter, pops the front
    item, calls it and returns 0; otherwise, if an idler is runnable, it
    pops the front idler, calls it and returns 0, the idler being dropped
    when it returned [None] and queued again at the end otherwise, with the
    counter reset when it reported work and one higher when it did not;
    otherwise, if the head of the timer queue is due, it resets the counter,
    pops it, calls it and returns 0; otherwise, with a non-empty table, it
    resets the counter, waits for an RPC, removes the one returned, calls
    its callback if it has one, and returns 0 (also when no RPC was
    returned); otherwise it returns the time left until the first timer, and
    [None] when there is no timer: the immediate queue, the timer queue and
    the table are then empty and no idler is runnable, though idlers may
    remain.  An exception of the callback leaves [run0] with it. *)
Theorem run0_priority `{Environment} (w : World) :
  logs_at_most_one w (run0 w) /\
  (forall cb a k rest,
      current (ev w) = (cb, a, k) :: rest -> has_name cb = true ->
      exists w1,
        loop_fields (ev w1) =
          (rest, idlers (ev w), O, queue (ev w), rpcs (ev w)) /\
        calls w1 = calls w /\ clock_now w1 = clock_now w /\
        zero_after (invoke cb a k w1) (run0 w)) /\
  (forall it rest,
      current (ev w) = [] -> idle_runnable (ev w) ->
      idlers (ev w) = it :: rest -> has_name it.1.1 = true ->
      exists w1,
        loop_fields (ev w1) =
          ([], rest, inactive (ev w), queue (ev w), rpcs (ev w)) /\
        calls w1 = calls w /\ clock_now w1 = clock_now w /\
        match invoke it.1.1 it.1.2 it.2 w1 with
        | Ok None w2 => run0 w = Ok (Some 0) w2
        | Ok (Some worked) w2 =>
            exists w3,
              run0 w = Ok (Some 0) w3 /\
              loop_fields (ev w3) =
                (current (ev w2), idlers (ev w2) ++ [it],
                 if worked then O else S (inactive (ev w2)),
                 queue (ev w2), rpcs (ev w2)) /\
              calls w3 = calls w2 /\ clock_now w3 = clock_now w2
        | Raise x w2 => run0 w = Raise x w2
        | Diverge => run0 w = Diverge
        end) /\
  (forall t cb a k rest,
      current (ev w) = [] -> ~ idle_runnable (ev w) ->
      queue (ev w) = (t, cb, a, k) :: rest -> t <= clock_now w ->
      has_name cb = true ->
      exists w1,
        loop_fields (ev w1) = ([], idlers (ev w), O, rest, rpcs (ev w)) /\
        calls w1 = calls w /\ clock_now w1 = clock_now w /\
        zero_after (invoke cb a k w1) (run0 w)) /\
  (current (ev w) = [] -> ~ idle_runnable (ev w) -> ~ timer_due w ->
      rpcs (ev w) <> ∅ ->
      exists w1,
        loop_fields (ev w1) =
          ([], idlers (ev w), O, queue (ev w), rpcs (ev w)) /\
        calls w1 = calls w /\ clock_now w1 = clock_now w /\
        match wait_any w1 with
        | Ok None w2 =>
            exists w3, run0 w = Ok (Some 0) w3 /\ ev w3 = ev w2 /\
                       calls w3 = calls w
        | Ok (Some h) w2 =>
            match rpcs (ev w2) !! h with
            | None =>
                exists w3, run0 w = Raise RuntimeError w3 /\ ev w3 = ev w2 /\
                           calls w3 = calls w
            | Some (cb, a, k) =>
                exists w3,
                  loop_fields (ev w3) =
                    (current (ev w2), idlers (ev w2), inactive (ev w2),
                     queue (ev w2), delete h (rpcs (ev w2))) /\
                  calls w3 = calls w /\
                  match cb with
                  | Some c => zero_after (invoke c a k w3) (run0 w)
                  | None => run0 w = Ok (Some 0) w3
                  end
            end
        | Raise x w2 =>
            exists w3, run0 w = Raise x w3 /\ ev w3 = ev w2 /\ calls w3 = calls w
        | Diverge => run0 w = Diverge
        end) /\
  (forall e rest,
      current (ev w) = [] -> ~ idle_runnable (ev w) -> rpcs (ev w) = ∅ ->
      queue (ev w) = e :: rest -> clock_now w < deadline e ->
      run0 w = Ok (Some (deadline e - clock_now w)) w) /\
  (current (ev w) = [] -> ~ idle_runnable (ev w) -> rpcs (ev w) = ∅ ->
      queue (ev w) = [] -> run0 w = Ok None w).
Proof.
  split; [apply run0_logs|].
  split.
  { intros cb a k rest Hc Hn. eexists. split; [|split; [|split]].
    4:{ rewrite (run0_current w cb a k rest Hc).
        rewrite <- (log_and_call_named cb a k _ Hn). apply zero_after_bind. }
    all: done. }
  split.
  { intros it rest Hc Hr Hi Hn.
    exists (with_ev (set_idlers rest) w).
    split; [unfold loop_fields; simpl; by rewrite Hc|]. split; [done|].
    split; [done|].
    rewrite run0_idle by done. unfold bind.
    rewrite (run_idle_runs w it rest Hi Hr), log_and_call_named by done.
    destruct (invoke _ _ _ _) as [[b|] w2|x w2|]; try done.
    by eexists. }
  split.
  { intros t cb a k rest Hc Hr Hq Ht Hn. eexists. split; [|split; [|split]].
    4:{ rewrite (run0_due w t cb a k rest) by done.
        rewrite <- (log_and_call_named cb a k _ Hn). apply zero_after_bind. }
    all: try done. unfold loop_fields. simpl. by rewrite Hc. }
  split.
  { intros Hc Hr Hd Hp. exists (with_ev (set_inactive O) w).
    split; [unfold loop_fields; simpl; by rewrite Hc|]. split; [done|].
    split; [done|].
    rewrite run0_rpc by done. unfold bind at 1. unfold wait_and_complete, bind.
    destruct (wait_any (with_ev (set_inactive O) w)) as [[h|] w2|x w2|];
      cbn [relog]; try by eexists.
    unfold complete_rpc. cbn [ev set_calls].
    destruct (rpcs (ev w2) !! h) as [[[[c|] a] k]|]; [| |by eexists].
    - exists (with_ev (fun e => set_rpcs (delete h (rpcs e)) e)
                (set_calls (calls w) w2)).
      split; [|split]; [done|done|].
      unfold zero_after, bind, ret. by destruct (invoke c a k _).
    - by exists (with_ev (fun e => set_rpcs (delete h (rpcs e)) e)
                   (set_calls (calls w) w2)). }
  split; [intros; by eapply run0_wait|apply run0_drained].
Qed.

(** C1, as first stated, fails: [run0] reports [None] although the idler
    queue is not empty, because its one idler is backed off. *)
Lemma run0_none_with_idlers :
  @run0 demo_env backed_off = Ok None backed_off /\
  idlers (ev backed_off) = [(Callable 0, [], [])].
Proof. split; reflexivity. Qed.

(** C9: when [wait_any], called by [run0] with a non-empty table, returns
    an RPC that is not a key of the table, [run0] raises [RuntimeError] and
    no callback has been called. *)
Theorem run0_foreign_rpc `{Environment} (w w2 : World) (h : handle) :
  current (ev w) = [] -> ~ idle_runnable (ev w) -> ~ timer_due w ->
  rpcs (ev w) <> ∅ ->
  wait_any (with_ev (set_inactive O) w) = Ok (Some h) w2 ->
  rpcs (ev w2) !! h = None ->
  exists w', run0 w = Raise RuntimeError w' /\ calls w' = calls w /\
             rpcs (ev w') = rpcs (ev w2).
Proof.
  intros Hc Hr Hd Hp Hw Hh. rewrite run0_rpc by done.
  exists (set_calls (calls w) w2). split; [|done].
  unfold bind, wait_and_complete, bind. rewrite Hw. cbn [relog].
  unfold complete_rpc. cbn [ev set_calls]. by rewrite Hh.
Qed.

Lemma run0_foreign_rpc_witness :
  exists w', @run0 rogue_env one_pending = Raise RuntimeError w' /\
             calls w' = calls one_pending /\
             rpcs (ev w') = rpcs (ev one_pending).
Proof.
  apply (@run0_foreign_rpc rogue_env one_pending
           (with_ev (set_inactive O) one_pending) 99%positive).
  - reflexivity.
  - unfold idle_runnable. simpl. lia.
  - unfold timer_due. simpl. tauto.
  - apply dict_nonempty_true. reflexivity.
  - reflexivity.
  - reflexivity.
Defined.

(** C3: an idler that raises.  [run_idle] has popped the idler, which is
    therefore gone for good, but nothing catches the exception: it leaves
    [run_idle], and [run] with it. *)
Theorem run_idle_exception_escapes :
  exists w',
    @run_idle demo_env (with_ev (set_idlers [cb2]) fresh) = Raise (AppError 2) w' /\
    @run demo_env 5 (with_ev (set_idlers [cb2]) fresh) = Raise (AppError 2) w' /\
    idlers (ev w') = [] /\ calls w' = [(2%nat, [], [])].
Proof. eexists. repeat split; reflexivity. Qed.

(** ** Registration *)

(** C5: [queue_call] with no delay returns with the item appended to the
    immediate queue, after the items already there, and with the timer
    queue, the idlers, the counter and the table as they were, no callback
    called and the clock untouched; with a delay below 1e9 it inserts an
    event due at now + delay into the timer queue, with a delay of 1e9 or
    more an event due at the delay itself; in both timed cases the immediate
    queue is as it was. *)
Theorem queue_call_routes (delay : option Z) (cb : callback) (a : args_t)
    (k : kwds_t) (w : World) :
  match delay with
  | None =>
      exists w' : World,
        queue_call None cb a k w = Ok tt w' /\
        current (ev w') = current (ev w) ++ [(cb, a, k)] /\
        queue (ev w') = queue (ev w) /\
        idlers (ev w') = idlers (ev w) /\
        inactive (ev w') = inactive (ev w) /\
        rpcs (ev w') = rpcs (ev w) /\
        calls w' = calls w /\ clock_now w' = clock_now w
  | Some d =>
      exists (i : nat) (when : Z) (w' : World),
        (d < 1000000000 -> when = clock_now w + d) /\
        (1000000000 <= d -> when = d) /\
        (i <= length (queue (ev w)))%nat /\
        queue_call (Some d) cb a k w = Ok tt w' /\
        queue (ev w') =
          take i (queue (ev w)) ++ (when, cb, a, k) :: drop i (queue (ev w)) /\
        current (ev w') = current (ev w) /\
        w' = with_ev (set_queue (queue (ev w'))) w
  end.
Proof.
  destruct delay as [d|]; [|by eexists].
  unfold queue_call.
  set (when := if d <? threshold then d + clock_now w else d).
  destruct (insort_default_total (when, cb, a, k) w) as (i & Hi & ->).
  exists i, when. eexists. unfold when, threshold.
  split; [destruct (Z.ltb_spec d 1000000000); lia|].
  split; [destruct (Z.ltb_spec d 1000000000); lia|].
  split; [exact Hi|]. split; [reflexivity|]. by repeat split.
Qed.

(** C8: [queue_rpc] on an RPC that is neither running nor finishing raises
    [RuntimeError] at once, with nothing changed, the table included; on an
    RPC that is running or finishing it returns. *)
Theorem queue_rpc_needs_dispatch (r : rpc) (cb : option callback) (a : args_t)
    (k : kwds_t) (w : World) :
  match rpc_state_of w (rpc_handle r) with
  | IDLE => queue_rpc (Some r) cb a k w = Raise RuntimeError w
  | RUNNING | FINISHING => exists w', queue_rpc (Some r) cb a k w = Ok tt w'
  end.
Proof.
  unfold queue_rpc.
  destruct (rpc_state_of w (rpc_handle r)); [done|..];
    (destruct r as [h|h subs]; [|destruct (1 <? length subs)%nat]; by eexists).
Qed.

(** C10: [queue_rpc] with no RPC returns and changes nothing: the four
    structures and the counter are as they were. *)
Theorem queue_rpc_none (cb : option callback) (a : args_t) (k : kwds_t)
    (w : World) :
  queue_rpc None cb a k w = Ok tt w.
Proof. reflexivity. Qed.

(** ** [run1] and [run] *)

Lemma run1_worked `{Environment} w w' :
  run0 w = Ok (Some 0) w' -> run1 w = Ok true w'.
Proof. unfold run1, bind. by intros ->. Qed.

Lemma run1_slept `{Environment} w w' d :
  run0 w = Ok (Some d) w' -> 0 < d ->
  run1 w =
    Ok true (set_clock (clock_now w' + d + Z.of_nat (oversleep d w')) w').
Proof.
  unfold run1, bind. intros -> Hd.
  destruct (Z.ltb_spec 0 d); [done|lia].
Qed.

Lemma run1_nothing `{Environment} w w' :
  run0 w = Ok None w' -> run1 w = Ok false w'.
Proof. unfold run1, bind. by intros ->. Qed.

Lemma run_loop_more `{Environment} n w w' :
  run1 w = Ok true w' -> run_loop (S n) w = run_loop n w'.
Proof. simpl. unfold bind. by intros ->. Qed.

Lemma run_loop_stop `{Environment} n w w' :
  run1 w = Ok false w' -> run_loop (S n) w = Ok tt w'.
Proof. simpl. unfold bind. by intros ->. Qed.

(** ** A pass over idlers that have nothing to do *)

Lemma invoke_quiet_idler `{Environment} it w :
  reports_no_work it ->
  exists w', log_and_call it.1.1 it.1.2 it.2 w = Ok (Some false) w' /\
             ev w' = ev w /\ calls w' = calls w ++ item_call it.
Proof.
  intros (f & Hf & Happ). destruct it as [[cb a] k]. simpl in *. subst cb.
  destruct (Happ w) as (w' & Hw' & Hev).
  exists (set_calls (calls w ++ [(f, a, k)]) w'). unfold log_and_call.
  simpl. rewrite Hw'.
  by repeat split.
Qed.

Lemma idle_rotation `{Environment} l2 : forall l1 w,
  current (ev w) = [] -> queue (ev w) = [] -> rpcs (ev w) = ∅ ->
  idlers (ev w) = l2 ++ l1 -> inactive (ev w) = length l1 ->
  Forall reports_no_work l2 ->
  exists w', run_loop (S (length l2)) w = Ok tt w' /\
    inactive (ev w') = (length l1 + length l2)%nat /\
    idlers (ev w') = l1 ++ l2 /\
    calls w' = calls w ++ flat_map item_call l2.
Proof.
  induction l2 as [|it l2 IH]; intros l1 w Hc Hq Hp Hi Hn Hall.
  - exists w. simpl in Hi. rewrite !app_nil_r, Nat.add_0_r. repeat split; try done.
    apply run_loop_stop, run1_nothing, run0_drained; try done.
    unfold idle_runnable. rewrite Hi. lia.
  - apply Forall_cons in Hall as [Hit Hall].
    assert (idle_runnable (ev w)) as Hrun.
    { unfold idle_runnable. rewrite Hi, Hn. simpl. rewrite length_app. lia. }
    destruct (invoke_quiet_idler it (with_ev (set_idlers (l2 ++ l1)) w) Hit)
      as (w2 & Hinv & Hev & Hcalls).
    set (w3 := with_ev (fun e => set_idlers (idlers e ++ [it]) e)
                 (with_ev (fun e => set_inactive (S (inactive e)) e) w2)).
    assert (run1 w = Ok true w3) as Hrun1.
    { apply run1_worked. rewrite run0_idle by done. unfold bind.
      rewrite (run_idle_runs w it (l2 ++ l1) Hi Hrun), Hinv. done. }
    destruct (IH (l1 ++ [it]) w3) as (w' & Hloop & Hin & Hid & Hca).
    + subst w3. simpl. by rewrite Hev.
    + subst w3. simpl. by rewrite Hev.
    + subst w3. simpl. by rewrite Hev.
    + subst w3. simpl. rewrite Hev. simpl. by rewrite <- app_assoc.
    + subst w3. simpl. rewrite Hev. simpl. rewrite Hn, length_app. simpl. lia.
    + done.
    + exists w'. split; [by rewrite (run_loop_more _ w w3 Hrun1)|].
      split; [rewrite Hin, length_app; simpl; lia|].
      split; [by rewrite Hid, <- app_assoc|].
      rewrite Hca. subst w3. simpl. rewrite Hcalls. simpl. by rewrite <- app_assoc.
Qed.

(** A pass over idlers that have a [__name__]: from a loop that holds only
    such idlers, each of which reports "no work", one call of [run] calls
    each idler once, in order, and returns with the counter equal to their
    number and all of them still queued; and [run_idle] pops nothing and
    returns [False] once the counter has reached the number of idlers. *)
Lemma idle_pass `{Environment} (w : World) :
  current (ev w) = [] -> queue (ev w) = [] -> rpcs (ev w) = ∅ ->
  Forall reports_no_work (idlers (ev w)) ->
  (exists w', run (S (length (idlers (ev w)))) w = Ok tt w' /\
     inactive (ev w') = length (idlers (ev w)) /\
     idlers (ev w') = idlers (ev w) /\
     calls w' = calls w ++ flat_map item_call (idlers (ev w))) /\
  (forall w0, (length (idlers (ev w0)) <= inactive (ev w0))%nat ->
     run_idle w0 = Ok false w0).
Proof.
  intros Hc Hq Hp Hall. split; [|apply run_idle_blocked].
  unfold run.
  destruct (idle_rotation (idlers (ev w)) [] (with_ev (set_inactive O) w))
    as (w' & Hloop & Hin & Hid & Hca); try done.
  { simpl. by rewrite app_nil_r. }
  exists w'. by repeat split.
Qed.

Lemma demo_no_work : @reports_no_work demo_env cb0.
Proof. exists 0%nat. split; [reflexivity|]. intros w. by eexists. Qed.

Lemma idle_pass_example :
  (exists w', @run demo_env 4 (with_ev (set_idlers [cb0; cb0; cb0]) fresh) = Ok tt w' /\
     inactive (ev w') = 3%nat /\
     idlers (ev w') = [cb0; cb0; cb0] /\
     calls w' = [(0%nat, [], []); (0%nat, [], []); (0%nat, [], [])]) /\
  (forall w0, (length (idlers (ev w0)) <= inactive (ev w0))%nat ->
     @run_idle demo_env w0 = Ok false w0).
Proof.
  apply (@idle_pass demo_env (with_ev (set_idlers [cb0; cb0; cb0]) fresh));
    try reflexivity.
  repeat constructor; apply demo_no_work.
Qed.

(** C7: an idler without a [__name__] that reports "no work", alone on the
    loop.  [run_idle] pops it and then reads its name for the debug log,
    which raises [AttributeError]: the idler is never called, it is gone
    from the queue, the counter is still 0, and [run] raises.  The same
    callable under a name is called once and stays queued, with the counter
    at 1. *)
Theorem nameless_idler_lost :
  (exists w',
     @run_idle demo_env (with_ev (set_idlers [(Nameless 0, [], [])]) fresh) =
       Raise AttributeError w' /\
     @run demo_env 5 (with_ev (set_idlers [(Nameless 0, [], [])]) fresh) =
       Raise AttributeError w' /\
     idlers (ev w') = [] /\ inactive (ev w') = O /\ calls w' = []) /\
  (exists w',
     @run demo_env 5 (with_ev (set_idlers [(Callable 0, [], [])]) fresh) =
       Ok tt w' /\
     idlers (ev w') = [(Callable 0, [], [])] /\ inactive (ev w') = 1%nat /\
     calls w' = [(0%nat, [], [])]).
Proof. split; eexists; repeat split; reflexivity. Qed.

(** ** Draining the timer queue *)

Lemma invoke_quiet `{Environment} f a k w :
  quiet f a k ->
  exists v w', log_and_call (Callable f) a k w = Ok v w' /\
               ev w' = ev w /\ calls w' = calls w ++ [(f, a, k)].
Proof.
  intros Hq. destruct (Hq w) as (v & w' & Hw' & Hev).
  exists v, (set_calls (calls w ++ [(f, a, k)]) w'). unfold log_and_call.
  simpl. by rewrite Hw'.
Qed.

Lemma no_idlers_not_runnable w : idlers (ev w) = [] -> ~ idle_runnable (ev w).
Proof. unfold idle_runnable. intros ->. simpl. lia. Qed.

Lemma due_step `{Environment} w t f a k rest :
  current (ev w) = [] -> idlers (ev w) = [] ->
  queue (ev w) = (t, Callable f, a, k) :: rest -> t <= clock_now w ->
  quiet f a k ->
  exists w2, run1 w = Ok true w2 /\
    ev w2 = set_queue rest (set_inactive O (ev w)) /\
    calls w2 = calls w ++ [(f, a, k)].
Proof.
  intros Hc Hi Hq Ht Hquiet.
  destruct (invoke_quiet f a k
              (with_ev (fun e => set_queue rest (set_inactive O e)) w) Hquiet)
    as (v & w2 & Hinv & Hev & Hcalls).
  exists w2. split; [|done].
  apply run1_worked.
  rewrite (run0_due w t (Callable f) a k rest) by auto using no_idlers_not_runnable.
  unfold bind. by rewrite Hinv.
Qed.

Lemma timer_drain `{Environment} q : forall w,
  current (ev w) = [] -> idlers (ev w) = [] -> rpcs (ev w) = ∅ ->
  queue (ev w) = q -> Forall quiet_event q ->
  exists n w', run_loop n w = Ok tt w' /\
    calls w' = calls w ++ flat_map (fun e => item_call (event_item e)) q /\
    queue (ev w') = [].
Proof.
  induction q as [|e rest IH]; intros w Hc Hi Hp Hq Hall.
  - exists 1%nat, w. rewrite app_nil_r. repeat split; try done.
    apply run_loop_stop, run1_nothing, run0_drained;
      auto using no_idlers_not_runnable.
  - apply Forall_cons in Hall as [(f & Hf & Hquiet) Hall].
    destruct e as [[[t cb] a] k]. simpl in Hf, Hquiet. subst cb.
    assert (forall w0, current (ev w0) = [] -> idlers (ev w0) = [] ->
              rpcs (ev w0) = ∅ ->
              queue (ev w0) = (t, Callable f, a, k) :: rest ->
              t <= clock_now w0 ->
              exists n w', run_loop n w0 = Ok tt w' /\
                calls w' = calls w0 ++ (f, a, k) :: flat_map
                             (fun e => item_call (event_item e)) rest /\
                queue (ev w') = []) as Hdue.
    { intros w0 Hc0 Hi0 Hp0 Hq0 Ht0.
      destruct (due_step w0 t f a k rest Hc0 Hi0 Hq0 Ht0 Hquiet)
        as (w2 & Hrun1 & Hev & Hcalls).
      destruct (IH w2) as (n & w' & Hloop & Hca & Hqe);
        try (rewrite Hev; simpl; done); [done|].
      exists (S n), w'. rewrite (run_loop_more n w0 w2 Hrun1).
      split; [done|]. split; [|done].
      by rewrite Hca, Hcalls, <- app_assoc. }
    destruct (Z.le_gt_cases t (clock_now w)) as [Ht|Ht]; [by apply Hdue|].
    assert (run0 w = Ok (Some (t - clock_now w)) w) as Hwait.
    { rewrite (run0_wait w (t, Callable f, a, k) rest);
        auto using no_idlers_not_runnable. }
    apply run1_slept in Hwait; [|lia].
    destruct (Hdue (set_clock (clock_now w + (t - clock_now w) +
                               Z.of_nat (oversleep (t - clock_now w) w)) w))
      as (n & w' & Hloop & Hca & Hqe); try done.
    { simpl. lia. }
    exists (S n), w'. by rewrite (run_loop_more n w _ Hwait).
Qed.

(** ** Queuing several events *)

Lemma queue_events_sorted es : forall w,
  sorted_by_deadline (queue (ev w)) ->
  exists q', queue_events es w = Ok tt (with_ev (set_queue q') w) /\
    sorted_by_deadline q' /\ q' ≡ₚ queue (ev w) ++ es.
Proof.
  induction es as [|e es IH]; intros w Hs.
  - exists (queue (ev w)). rewrite app_nil_r. split; [|done].
    by destruct w as [[] ?].
  - destruct (insort_default_sorted e w Hs) as (l1 & l2 & Hq & Hins & _ & _ & Hs').
    destruct (IH (with_ev (set_queue (l1 ++ e :: l2)) w) Hs')
      as (q' & Hev & Hsq & Hperm).
    exists q'. simpl. unfold bind. rewrite Hins. split; [exact Hev|].
    split; [done|]. rewrite Hperm. simpl. rewrite Hq.
    rewrite <- !app_assoc. apply Permutation_app_head.
    simpl. by rewrite Permutation_middle.
Qed.

(** Three events with increasing deadlines have one sorted arrangement. *)
Lemma sorted_three (e1 e2 e3 : event) q :
  deadline e1 < deadline e2 < deadline e3 ->
  sorted_by_deadline q -> q ≡ₚ [e1; e2; e3] -> q = [e1; e2; e3].
Proof.
  intros Hd Hs Hp. symmetry in Hp. apply permutations_Permutation in Hp.
  unfold sorted_by_deadline, le_deadline in Hs.
  simpl in Hp. rewrite !elem_of_cons in Hp.
  destruct Hp as [->|[->|[->|[->|[->|[->|Hp]]]]]]; try done;
    try (by apply elem_of_nil in Hp);
    repeat match goal with
           | H : StronglySorted _ (_ :: _) |- _ =>
               apply StronglySorted_cons in H as [? ?]
           | H : Forall _ (_ :: _) |- _ => apply Forall_cons in H as [? ?]
           end; lia.
Qed.

(** With bounds inside the queue the event lands between them, whatever
    its deadline. *)
Lemma insort_within_bounds e lo hi w :
  0 <= lo -> hi <= Z.of_nat (length (queue (ev w))) ->
  exists (i : nat) w',
    insort_event_right e lo (Some hi) w = Ok tt w' /\
    lo <= Z.of_nat i /\ (Z.of_nat i <= hi \/ Z.of_nat i = lo) /\
    queue (ev w') = take i (queue (ev w)) ++ e :: drop i (queue (ev w)).
Proof.
  intros Hlo Hhi. unfold insort_event_right.
  destruct (Z.ltb_spec lo 0); [lia|].
  destruct (bisect_total (Z.to_nat (hi - lo)) (queue (ev w)) (deadline e) lo hi)
    as (i & -> & Hi); [lia..|].
  exists (Z.to_nat i). eexists. split; [done|]. split; [lia|]. split; [lia|done].
Qed.

(** C4 (as amended): with the default bounds, as [queue_call] calls it,
    [insort_event_right] keeps a sorted timer queue sorted: it puts the
    event after every event due at the same time or earlier and before
    every later one, the others keeping their order, and touches nothing
    else; popping the head keeps the rest sorted.  Hence three events due at
    t1 < t2 < t3, whose callbacks have a [__name__], queued in any order on
    an empty loop, are called in the order of their deadlines when the loop
    is run.  With bounds given, the event is placed between them, whatever
    its deadline. *)
Theorem timer_queue_order `{Environment} (w : World) (e : event)
    (t1 t2 t3 : Z) (f1 f2 f3 : nat) (a1 a2 a3 : args_t) (k1 k2 k3 : kwds_t)
    (order : list event) :
  sorted_by_deadline (queue (ev w)) ->
  t1 < t2 < t3 ->
  quiet f1 a1 k1 -> quiet f2 a2 k2 -> quiet f3 a3 k3 ->
  order ≡ₚ [(t1, Callable f1, a1, k1); (t2, Callable f2, a2, k2);
            (t3, Callable f3, a3, k3)] ->
  (exists l1 l2 w',
      queue (ev w) = l1 ++ l2 /\
      insort_event_right e 0 None w = Ok tt w' /\
      loop_fields (ev w') =
        (current (ev w), idlers (ev w), inactive (ev w), l1 ++ e :: l2,
         rpcs (ev w)) /\
      calls w' = calls w /\
      Forall (fun x => deadline x <= deadline e) l1 /\
      Forall (fun x => deadline e < deadline x) l2 /\
      sorted_by_deadline (queue (ev w'))) /\
  sorted_by_deadline (tail (queue (ev w))) /\
  (forall w0, ev w0 = empty_loop ->
      exists n w',
        (queue_events order ;;; run n) w0 = Ok tt w' /\
        calls w' = calls w0 ++ [(f1, a1, k1); (f2, a2, k2); (f3, a3, k3)] /\
        queue (ev w') = []) /\
  (forall lo hi, 0 <= lo -> hi <= Z.of_nat (length (queue (ev w))) ->
      exists (i : nat) w',
        insort_event_right e lo (Some hi) w = Ok tt w' /\
        lo <= Z.of_nat i /\ (Z.of_nat i <= hi \/ Z.of_nat i = lo) /\
        queue (ev w') = take i (queue (ev w)) ++ e :: drop i (queue (ev w))).
Proof.
  intros Hs Ht Hq1 Hq2 Hq3 Hperm.
  split.
  { destruct (insort_default_sorted e w Hs) as (l1 & l2 & Hq & Hins & Hl1 & Hl2 & Hs').
    exists l1, l2. eexists. split; [done|]. split; [exact Hins|]. by repeat split. }
  split.
  { destruct (queue (ev w)); [done|]. by apply StronglySorted_cons in Hs as [_ ?]. }
  split; [|intros lo hi; apply insort_within_bounds].
  intros w0 Hw0.
  destruct (queue_events_sorted order w0) as (q' & Hev & Hsq & Hp).
  { rewrite Hw0. constructor. }
  rewrite Hw0 in Hp. simpl in Hp. rewrite Hperm in Hp.
  apply sorted_three in Hp; [|done..]. subst q'.
  match type of Hev with
  | _ = Ok _ ?W =>
      destruct (timer_drain (queue (ev W)) (with_ev (set_inactive O) W))
        as (n & w' & Hloop & Hca & Hqe); try (simpl; rewrite Hw0; done); [done| |]
  end.
  { repeat constructor; eexists; (split; [reflexivity|done]). }
  exists n, w'. unfold bind. rewrite Hev. unfold run. by rewrite Hloop.
Qed.

Lemma demo_quiet_5 a k : @quiet demo_env 5 a k.
Proof. intros w. by eexists _, _. Qed.

Lemma demo_quiet_6 a k : @quiet demo_env 6 a k.
Proof. intros w. by eexists _, _. Qed.

Lemma demo_quiet_7 a k : @quiet demo_env 7 a k.
Proof. intros w. by eexists _, _. Qed.

(** The first scenario of the spec: deadlines 1, 3 and 2 queued in that
    order. *)
Lemma timer_queue_order_witness :
  (exists l1 l2 w',
      queue (ev fresh) = l1 ++ l2 /\
      insort_event_right (5, Callable 5, [], []) 0 None fresh = Ok tt w' /\
      loop_fields (ev w') =
        (current (ev fresh), idlers (ev fresh), inactive (ev fresh),
         l1 ++ (5, Callable 5, [], []) :: l2, rpcs (ev fresh)) /\
      calls w' = calls fresh /\
      Forall (fun x => deadline x <= 5) l1 /\
      Forall (fun x => 5 < deadline x) l2 /\
      sorted_by_deadline (queue (ev w'))) /\
  sorted_by_deadline (tail (queue (ev fresh))) /\
  (forall w0, ev w0 = empty_loop ->
      exists n w',
        @bind unit unit
          (queue_events [(1, Callable 5, [42], []); (3, Callable 7, [], []);
                         (2, Callable 6, [100], [])])
          (fun _ => @run demo_env n) w0 = Ok tt w' /\
        calls w' = calls w0 ++ [(5%nat, [42], []); (6%nat, [100], []);
                                (7%nat, [], [])] /\
        queue (ev w') = []) /\
  (forall lo hi, 0 <= lo -> hi <= Z.of_nat (length (queue (ev fresh))) ->
      exists (i : nat) w',
        insort_event_right (5, Callable 5, [], []) lo (Some hi) fresh = Ok tt w' /\
        lo <= Z.of_nat i /\ (Z.of_nat i <= hi \/ Z.of_nat i = lo) /\
        queue (ev w') =
          take i (queue (ev fresh)) ++
          (5, Callable 5, [], []) :: drop i (queue (ev fresh))).
Proof.
  apply (@timer_queue_order demo_env fresh (5, Callable 5, [], []) 1 2 3
           5%nat 6%nat 7%nat [42] [100] [] [] [] []
           [(1, Callable 5, [42], []); (3, Callable 7, [], []);
            (2, Callable 6, [100], [])]).
  - constructor.
  - lia.
  - apply demo_quiet_5.
  - apply demo_quiet_6.
  - apply demo_quiet_7.
  - apply perm_skip, perm_swap.
Defined.

(** C4, as first stated, fails: [insort_event_right] is a method of the
    loop with bounds of its own, and with [lo = 2] an event due at 0 lands
    behind the events due at 1 and 3 of a sorted queue, which is sorted no
    more. *)
Lemma insort_bounds_break_order :
  sorted_by_deadline
    [(1, Callable 5, [], []); (3, Callable 6, [], []); (5, Callable 7, [], [])] /\
  insort_event_right (0, Callable 5, [], []) 2 None
    (with_ev (set_queue [(1, Callable 5, [], []); (3, Callable 6, [], []);
                         (5, Callable 7, [], [])]) fresh) =
    Ok tt (with_ev (set_queue [(1, Callable 5, [], []); (3, Callable 6, [], []);
                               (0, Callable 5, [], []); (5, Callable 7, [], [])])
             fresh) /\
  ~ sorted_by_deadline
      [(1, Callable 5, [], []); (3, Callable 6, [], []); (0, Callable 5, [], []);
       (5, Callable 7, [], [])].
Proof.
  split; [|split].
  - repeat constructor; unfold le_deadline, deadline; simpl; lia.
  - reflexivity.
  - intros Hs. apply StronglySorted_cons in Hs as [Hall _].
    apply Forall_cons in Hall as [_ Hall]. apply Forall_cons in Hall as [Hle _].
    unfold le_deadline, deadline in Hle. simpl in Hle. lia.
Qed.

(** ** Composite RPCs *)

Lemma register_lookup hs (entry : rpc_entry) : forall (m : gmap handle rpc_entry) s,
  foldl (fun m h => <[h:=entry]> m) m hs !! s =
    if decide (s ∈ hs) then Some entry else m !! s.
Proof.
  induction hs as [|h hs IH]; intros m s; cbn [foldl].
  - destruct (decide (s ∈ [])) as [Hin|_]; [by apply elem_of_nil in Hin|done].
  - rewrite IH. destruct (decide (s ∈ h :: hs)) as [Hin|Hnin].
    + apply elem_of_cons in Hin as [->|Hin].
      * destruct (decide (h ∈ hs)); [done|by rewrite lookup_insert_eq].
      * by rewrite decide_True.
    + rewrite decide_False by (intros ?; apply Hnin, elem_of_cons; by right).
      rewrite lookup_insert_ne; [done|].
      intros ->. apply Hnin, elem_of_cons. by left.
Qed.

Lemma unregister_lookup hs : forall (m : gmap handle rpc_entry) s,
  foldl (fun m h => delete h m) m hs !! s =
    if decide (s ∈ hs) then None else m !! s.
Proof.
  induction hs as [|h hs IH]; intros m s; cbn [foldl].
  - destruct (decide (s ∈ [])) as [Hin|_]; [by apply elem_of_nil in Hin|done].
  - rewrite IH. destruct (decide (s ∈ h :: hs)) as [Hin|Hnin].
    + apply elem_of_cons in Hin as [->|Hin].
      * destruct (decide (h ∈ hs)); [done|by rewrite lookup_delete_eq].
      * by rewrite decide_True.
    + rewrite decide_False by (intros ?; apply Hnin, elem_of_cons; by right).
      rewrite lookup_delete_ne; [done|].
      intros ->. apply Hnin, elem_of_cons. by left.
Qed.

Lemma guard_done `{Environment} h c a k a0 k0 w :
  done w !! h = Some true ->
  invoke (help_multi_rpc_along h c a k) a0 k0 w = Ok None w.
Proof. simpl. intros ->. by destruct (is_finishing _). Qed.

Lemma guard_not_finishing `{Environment} h c a k a0 k0 w :
  is_finishing (rpc_state_of w h) = false ->
  invoke (help_multi_rpc_along h c a k) a0 k0 w = Ok None w.
Proof. simpl. by intros ->. Qed.

Lemma guard_fires `{Environment} h c a k a0 k0 w :
  is_finishing (rpc_state_of w h) = true -> done w !! h = Some false ->
  invoke (help_multi_rpc_along h (Some c) a k) a0 k0 w =
    (invoke c a k ;;; ret None) (set_done h true w).
Proof. simpl. unfold bind. by intros -> ->. Qed.

Lemma complete_each_guard `{Environment} h c f a k steps : forall w d,
  callable_id c = Some f ->
  keeps_rpcs f a k ->
  NoDup steps.*1 ->
  (forall s, s ∈ steps.*1 ->
     rpcs (ev w) !! s =
       Some (Some (help_multi_rpc_along h (Some c) a k), [], [])) ->
  done w !! h = Some d ->
  exists w2, complete_each steps w = Ok tt w2 /\
    calls w2 = calls w ++
      (if negb d && observed_finishing h steps then [(f, a, k)] else []) /\
    rpcs (ev w2) = foldl (fun m s => delete s m) (rpcs (ev w)) steps.*1 /\
    done w2 !! h = Some (d || observed_finishing h steps).
Proof.
  intros w d Hid Hkeep. revert w d.
  assert (forall w0, invoke c a k w0 =
            relog (calls w0 ++ [(f, a, k)]) (apply_callable f a k w0)) as Hcall.
  { intros w0. destruct c; simpl in Hid; by simplify_eq. }
  induction steps as [|[s0 st] rest IH]; intros w d Hnd Hreg Hd.
  - exists w. simpl. by rewrite andb_false_r, orb_false_r, app_nil_r.
  - simpl in Hnd. apply NoDup_cons in Hnd as [Hs0 Hnd].
    set (w1 := with_ev (fun e => set_rpcs (delete s0 (rpcs e)) e)
                 (set_rpc_state st w)).
    assert (exists w3 d',
      complete_rpc s0 (set_rpc_state st w) = Ok tt w3 /\
      rpcs (ev w3) = delete s0 (rpcs (ev w)) /\
      done w3 !! h = Some d' /\
      d' = (d || is_finishing (st h)) /\
      calls w3 = calls w ++
        (if negb d && is_finishing (st h) then [(f, a, k)] else []))
      as (w3 & d' & Hc & Hr3 & Hd3 & Hd' & Hca3).
    { unfold complete_rpc. cbn [ev set_rpc_state].
      rewrite Hreg by (apply elem_of_cons; by left).
      fold w1. unfold bind.
      destruct (is_finishing (st h)) eqn:Hfin.
      - destruct d.
        + rewrite guard_done by done. exists w1, true.
          rewrite app_nil_r. by repeat split.
        + rewrite guard_fires by done. unfold bind. rewrite Hcall.
          destruct (Hkeep (set_done h true w1)) as (v & w' & Happ & Hrp & Hdn).
          rewrite Happ. simpl.
          exists (set_calls (calls w ++ [(f, a, k)]) w'), true.
          repeat split; try done.
          simpl. rewrite Hdn. simpl. by rewrite lookup_insert_eq.
      - rewrite guard_not_finishing by done. exists w1, d.
        rewrite andb_false_r, orb_false_r, app_nil_r. by repeat split. }
    destruct (IH w3 d' Hnd) as (w2 & Hrest & Hca & Hgone & Hdone); [|done|].
    { intros s Hs. rewrite Hr3, lookup_delete_ne.
      - apply Hreg. apply elem_of_cons. by right.
      - intros ->. done. }
    exists w2. simpl. unfold bind. rewrite Hc. split; [done|]. split; [|split].
    + rewrite Hca, Hca3, <- app_assoc. f_equal. subst d'.
      unfold observed_finishing. simpl.
      destruct d, (is_finishing (st h)); simpl; by rewrite ?app_nil_r.
    + by rewrite Hgone, Hr3.
    + rewrite Hdone. subst d'. unfold observed_finishing. simpl.
      by rewrite orb_assoc.
Qed.

Lemma complete_each_app `{Environment} l1 l2 : forall w,
  complete_each (l1 ++ l2) w = (complete_each l1 ;;; complete_each l2) w.
Proof.
  induction l1 as [|[s st] l1 IH]; intros w; [done|].
  simpl. unfold bind. by destruct (complete_rpc s _) as [[] w1|x w1|].
Qed.

Lemma never_finishing h steps :
  Forall (fun p : handle * (handle -> rpc_state) => p.2 h <> FINISHING) steps ->
  observed_finishing h steps = false.
Proof.
  induction 1 as [|[s st] l Hst _ IH]; [done|].
  unfold observed_finishing in *. simpl in *. rewrite IH.
  by destruct (st h).
Qed.

(** C6: registering a composite RPC with more than one sub-RPC puts the
    guard closure under every sub-RPC and clears the flag, calling nothing.
    When all the sub-RPCs then complete, in any order, the callback supplied
    is called exactly once: not while the composite is not yet finishing,
    once, with the arguments supplied, at the first completion at which the
    composite is finishing, when the flag is set, and never again at the
    completions that follow, whatever the state of the composite then.
    All the sub-RPCs have left the table at the end. *)
Theorem composite_fires_once `{Environment} (h : handle) (subs : list handle)
    (c : callback) (f : nat) (a : args_t) (k : kwds_t) (w0 w1 : World)
    (before after : list (handle * (handle -> rpc_state)))
    (s : handle) (st : handle -> rpc_state) :
  (1 < length subs)%nat -> NoDup subs ->
  callable_id c = Some f ->
  queue_rpc (Some (MultiRpc h subs)) (Some c) a k w0 = Ok tt w1 ->
  keeps_rpcs f a k ->
  (before ++ (s, st) :: after).*1 ≡ₚ subs ->
  Forall (fun p => p.2 h <> FINISHING) before ->
  st h = FINISHING ->
  (forall x, x ∈ subs ->
     rpcs (ev w1) !! x =
       Some (Some (help_multi_rpc_along h (Some c) a k), [], [])) /\
  done w1 !! h = Some false /\
  calls w1 = calls w0 /\
  exists w2 w3 w4,
    complete_each before w1 = Ok tt w2 /\
    calls w2 = calls w0 /\ done w2 !! h = Some false /\
    complete_each [(s, st)] w2 = Ok tt w3 /\
    calls w3 = calls w0 ++ [(f, a, k)] /\ done w3 !! h = Some true /\
    complete_each after w3 = Ok tt w4 /\
    calls w4 = calls w0 ++ [(f, a, k)] /\
    complete_each (before ++ (s, st) :: after) w1 = Ok tt w4 /\
    (forall x, x ∈ subs -> rpcs (ev w4) !! x = None).
Proof.
  intros Hlen Hnd Hid Hq Hkeep Hperm Hbefore Hst.
  assert (w1 = register subs
                 (Some (help_multi_rpc_along h (Some c) a k), [], [])
                 (set_done h false w0)) as ->.
  { unfold queue_rpc in Hq. cbn [rpc_handle] in Hq.
    destruct (Nat.ltb_spec 1 (length subs)); [|lia].
    destruct (rpc_state_of w0 h); congruence. }
  set (w1 := register subs _ _).
  assert (forall x, x ∈ subs ->
            rpcs (ev w1) !! x =
            Some (Some (help_multi_rpc_along h (Some c) a k), [], []))
    as Hreg.
  { intros x Hx. subst w1. cbn [register with_ev ev rpcs set_rpcs].
    rewrite register_lookup. by rewrite decide_True. }
  assert (done w1 !! h = Some false) as Hd1.
  { subst w1. cbn. by rewrite lookup_insert_eq. }
  split; [exact Hreg|]. split; [exact Hd1|]. split; [done|].
  rewrite <- Hperm in Hnd. rewrite fmap_app, fmap_cons in Hnd, Hperm.
  cbn [fst] in Hnd, Hperm.
  apply NoDup_app in Hnd as (Hnd1 & Hdisj & Hnd2).
  pose proof Hnd2 as Hnd2'. apply NoDup_cons in Hnd2' as [Hs Hnd3].
  destruct (complete_each_guard h c f a k before w1 false Hid Hkeep Hnd1)
    as (w2 & Hrun2 & Hca2 & Hrp2 & Hd2); [|done|].
  { intros x Hx. apply Hreg. rewrite <- Hperm. apply elem_of_app. by left. }
  rewrite never_finishing in Hca2, Hd2 by done.
  rewrite app_nil_r in Hca2. cbn [orb] in Hd2.
  destruct (complete_each_guard h c f a k [(s, st)] w2 false Hid Hkeep)
    as (w3 & Hrun3 & Hca3 & Hrp3 & Hd3); [| |done|].
  { apply NoDup_singleton. }
  { intros x Hx. apply elem_of_cons in Hx as [->|Hx];
      [|by apply elem_of_nil in Hx].
    rewrite Hrp2, unregister_lookup, decide_False.
    - apply Hreg. rewrite <- Hperm. apply elem_of_app. right.
      apply elem_of_cons. by left.
    - intros Hin. apply (Hdisj s Hin). apply elem_of_cons. by left. }
  assert (observed_finishing h [(s, st)] = true) as Hobs.
  { unfold observed_finishing. simpl. by rewrite Hst. }
  rewrite Hobs in Hca3, Hd3. cbn [negb andb orb] in Hca3, Hd3.
  cbn [fmap list_fmap fst foldl] in Hrp3.
  destruct (complete_each_guard h c f a k after w3 true Hid Hkeep Hnd3)
    as (w4 & Hrun4 & Hca4 & Hrp4 & Hd4); [|done|].
  { intros x Hx. rewrite Hrp3, lookup_delete_ne, Hrp2, unregister_lookup, decide_False.
    - apply Hreg. rewrite <- Hperm. apply elem_of_app. right.
      apply elem_of_cons. by right.
    - intros Hin. apply (Hdisj x Hin). apply elem_of_cons. by right.
    - intros ->. done. }
  cbn [negb andb] in Hca4. rewrite app_nil_r in Hca4.
  exists w2, w3, w4.
  split; [done|]. split; [by rewrite Hca2|]. split; [done|].
  split; [done|]. split; [by rewrite Hca3, Hca2|]. split; [done|].
  split; [done|]. split; [by rewrite Hca4, Hca3, Hca2|]. split.
  - rewrite complete_each_app. unfold bind. rewrite Hrun2.
    change ((s, st) :: after) with ([(s, st)] ++ after).
    rewrite complete_each_app. unfold bind. by rewrite Hrun3.
  - intros x Hx. rewrite <- Hperm in Hx.
    rewrite Hrp4, unregister_lookup.
    destruct (decide (x ∈ after.*1)); [done|].
    rewrite Hrp3. destruct (decide (x = s)) as [->|Hne];
      [by rewrite lookup_delete_eq|].
    rewrite lookup_delete_ne by done. rewrite Hrp2, unregister_lookup.
    destruct (decide (x ∈ before.*1)); [done|].
    apply elem_of_app in Hx as [Hx|Hx]; [done|].
    apply elem_of_cons in Hx as [->|Hx]; done.
Qed.

Lemma demo_keeps_rpcs_5 a k : @keeps_rpcs demo_env 5 a k.
Proof. intros w. by eexists _, _. Qed.

(** The composite of the example: RPCs 2 and 1 complete while it is still
    running, RPC 3 completes it. *)
Lemma composite_fires_once_witness :
  (forall x, x ∈ [1; 2; 3]%positive ->
     rpcs (ev composite_registered) !! x =
       Some (Some (help_multi_rpc_along 10%positive (Some (Callable 5)) [4] []), [], [])) /\
  done composite_registered !! 10%positive = Some false /\
  calls composite_registered = calls fresh /\
  exists w2 w3 w4,
    @complete_each demo_env
      [(2%positive, fun _ => RUNNING); (1%positive, fun _ => RUNNING)]
      composite_registered = Ok tt w2 /\
    calls w2 = calls fresh /\ done w2 !! 10%positive = Some false /\
    @complete_each demo_env [(3%positive, fun _ => FINISHING)] w2 = Ok tt w3 /\
    calls w3 = calls fresh ++ [(5%nat, [4], [])] /\
    done w3 !! 10%positive = Some true /\
    @complete_each demo_env [] w3 = Ok tt w4 /\
    calls w4 = calls fresh ++ [(5%nat, [4], [])] /\
    @complete_each demo_env
      ([(2%positive, fun _ => RUNNING); (1%positive, fun _ => RUNNING)] ++
       (3%positive, fun _ => FINISHING) :: []) composite_registered = Ok tt w4 /\
    (forall x, x ∈ [1; 2; 3]%positive -> rpcs (ev w4) !! x = None).
Proof.
  apply (@composite_fires_once demo_env 10%positive [1; 2; 3]%positive
           (Callable 5) 5%nat [4] [] fresh composite_registered
           [(2%positive, fun _ => RUNNING); (1%positive, fun _ => RUNNING)] []
           3%positive (fun _ => FINISHING)).
  - simpl. lia.
  - repeat (apply NoDup_cons; split;
      [intros Hin;
       repeat (apply elem_of_cons in Hin as [Hin|Hin]; [discriminate|]);
       by apply elem_of_nil in Hin|]).
    apply NoDup_nil_2.
  - reflexivity.
  - reflexivity.
  - apply demo_keeps_rpcs_5.
  - simpl. apply perm_swap.
  - repeat constructor; discriminate.
  - reflexivity.
Defined.

(** The composite of the example: the callback is called once, by the last
    of the three completions. *)
Example fan_in_calls_once :
  exists w2, @complete_each demo_env fan_in composite_registered = Ok tt w2 /\
             calls w2 = [(5%nat, [4], [])] /\ rpcs (ev w2) = ∅.
Proof. eexists. repeat split; reflexivity. Qed.

(** ** [run] returns, and what it leaves *)

Lemma worked_not_None {A} (m : M A) w w' :
  (m ;;; ret (Some 0)) w <> Ok None w'.
Proof. unfold bind, ret. by destruct (m w). Qed.

Lemma run0_None `{Environment} w w' :
  run0 w = Ok None w' -> w' = w /\ at_rest (ev w).
Proof.
  intros Hr.
  destruct (current (ev w)) as [|[[cb a] k] rest] eqn:Hc.
  2:{ rewrite (run0_current w cb a k rest Hc) in Hr. by apply worked_not_None in Hr. }
  destruct (decide (idle_runnable (ev w))) as [Hi|Hi].
  { rewrite run0_idle in Hr by done. by apply worked_not_None in Hr. }
  rewrite run0_past_idle in Hr by done.
  unfold run0_timers, run0_rpcs in Hr.
  destruct (queue (ev w)) as [|[[[t cb] a] k] rest] eqn:Hq.
  - destruct (dict_nonempty (rpcs (ev w))) eqn:Hp.
    { by apply worked_not_None in Hr. }
    injection Hr as <-. split; [done|]. unfold at_rest.
    apply dict_nonempty_false in Hp. unfold idle_runnable in Hi.
    repeat split; [done..|lia].
  - destruct (_ <=? _); [by apply worked_not_None in Hr|].
    destruct (dict_nonempty _); [by apply worked_not_None in Hr|done].
Qed.

Lemma run_loop_at_rest `{Environment} n : forall w w',
  run_loop n w = Ok tt w' -> at_rest (ev w').
Proof.
  induction n as [|n IH]; intros w w' Hr; [done|].
  simpl in Hr. unfold bind in Hr.
  destruct (run1 w) as [[] w1|e w1|] eqn:H1; try done.
  - by eapply IH.
  - injection Hr as <-. unfold run1, bind in H1.
    destruct (run0 w) as [[d|] w0|e w0|] eqn:H0; try done.
    + by destruct (0 <? d).
    + injection H1 as <-. by apply run0_None in H0 as [-> ?].
Qed.

Lemma waiting_le_1 w : (waiting w <= 1)%nat.
Proof.
  unfold waiting. destruct (queue (ev w)); [lia|]. destruct (_ <=? _); lia.
Qed.

Lemma invoke_settles `{Environment} cb : settles -> forall a k w,
  match invoke cb a k w with
  | Ok v w' => ev w' = ev w /\ v <> Some true
  | Raise _ _ => True
  | Diverge => False
  end.
Proof.
  intros [Hcall _].
  induction cb as [f|f|r a' k'|r c a' k' IH] using callback_nested_ind;
    intros a k w; simpl.
  - specialize (Hcall f a k w). by destruct (apply_callable f a k w).
  - specialize (Hcall f a k w). by destruct (apply_callable f a k w).
  - destruct (is_finishing _); [|done]. by destruct (done w !! r) as [[]|].
  - destruct (is_finishing _); [|done].
    destruct (done w !! r) as [[]|]; try done.
    specialize (IH a' k' (set_done r true w)).
    destruct (invoke c a' k' (set_done r true w)); try done.
    by destruct IH.
Qed.

Lemma log_and_call_settles `{Environment} cb : settles -> forall a k w,
  match log_and_call cb a k w with
  | Ok v w' => ev w' = ev w /\ v <> Some true
  | Raise _ _ => True
  | Diverge => False
  end.
Proof.
  intros Hs a k w. unfold log_and_call.
  destruct (has_name cb); [by apply invoke_settles|done].
Qed.

(** A callback called on a loop with less work keeps it that way. *)
Lemma invoke_progress `{Environment} cb a k w w1 :
  settles ->
  (2 * backlog (ev w1) + 2 <= 2 * backlog (ev w))%nat ->
  progress w ((log_and_call cb a k ;;; ret (Some 0)) w1).
Proof.
  intros Hs Hb. unfold bind, ret, progress.
  pose proof (log_and_call_settles cb Hs a k w1) as Hi.
  destruct (log_and_call cb a k w1); try done. destruct Hi as [-> _]. done.
Qed.

Lemma backlog_pop (n q r k i : nat) :
  (2 * ((n + q + r) * S k + (k - 0)) + 2 <= 2 * ((S n + q + r) * S k + (k - i)))%nat.
Proof. nia. Qed.

Lemma run_idle_progress `{Environment} w :
  settles -> idle_runnable (ev w) -> progress w (run_idle w).
Proof.
  intros Hs Hr.
  destruct (idlers (ev w)) as [|it rest] eqn:Hi.
  { unfold idle_runnable in Hr. rewrite Hi in Hr. simpl in Hr. lia. }
  rewrite (run_idle_runs w it rest Hi Hr).
  pose proof (log_and_call_settles it.1.1 Hs it.1.2 it.2
                (with_ev (set_idlers rest) w)) as Hinv.
  unfold idle_runnable in Hr. rewrite Hi in Hr. simpl in Hr.
  destruct (log_and_call _ _ _ _) as [[[]|] w2|e w2|]; try done;
    destruct Hinv as [Hev Hv]; try done;
    unfold progress, backlog; simpl; rewrite Hev, Hi; simpl;
    rewrite ?length_app; simpl; nia.
Qed.

Lemma complete_rpc_progress `{Environment} h w w1 :
  settles -> ev w1 = set_inactive O (ev w) ->
  progress w ((complete_rpc h ;;; ret (Some 0)) w1).
Proof.
  intros Hs Hev. unfold bind at 1, complete_rpc.
  destruct (rpcs (ev w1) !! h) as [[[cb a] k]|] eqn:Hl; [|done].
  assert (2 * backlog (ev (with_ev (fun e => set_rpcs (delete h (rpcs e)) e) w1)) + 2
          <= 2 * backlog (ev w))%nat as Hb.
  { unfold backlog. simpl. rewrite Hev in *. simpl in *.
    pose proof (map_size_delete_Some h (rpcs (ev w))) as Hsz.
    rewrite map_size_delete, Hl.
    assert (size (rpcs (ev w)) <> 0)%nat.
    { intros Hz. apply map_size_empty_iff in Hz. by rewrite Hz in Hl. }
    destruct (size (rpcs (ev w))); [done|]. simpl. nia. }
  destruct cb as [c|].
  - pose proof (invoke_settles c Hs a k
                  (with_ev (fun e => set_rpcs (delete h (rpcs e)) e) w1)) as Hi.
    unfold bind, ret. destruct (invoke c a k _); try done.
    destruct Hi as [Hi _]. unfold progress. by rewrite Hi.
  - done.
Qed.

Lemma rpc_step_progress `{Environment} w :
  settles -> rpcs (ev w) <> ∅ ->
  progress w ((wait_and_complete ;;; ret (Some 0)) (with_ev (set_inactive O) w)).
Proof.
  intros Hs Hp. pose proof Hs as [_ Hwait].
  specialize (Hwait (with_ev (set_inactive O) w) Hp).
  unfold wait_and_complete. unfold bind at 1 2.
  destruct (wait_any (with_ev (set_inactive O) w)) as [[h|] w2|e w2|]; try done.
  cbn [relog].
  apply (complete_rpc_progress h w (set_calls (calls (with_ev (set_inactive O) w)) w2) Hs).
  simpl. by rewrite Hwait.
Qed.

(** Under [settles] every step of [run1] but the last takes work off the
    loop, or is the sleep that makes the first timer due. *)
Lemma run1_progress `{Environment} w :
  settles ->
  match run1 w with
  | Ok true w' => (work_left w' < work_left w)%nat
  | Ok false _ | Raise _ _ => True
  | Diverge => False
  end.
Proof.
  intros Hs.
  assert (forall r : result (option Z),
            progress w r -> run0 w = r ->
            match run1 w with
            | Ok true w' => (work_left w' < work_left w)%nat
            | Ok false _ | Raise _ _ => True
            | Diverge => False
            end) as Hwork.
  { intros r Hp Hr. unfold run1, bind. rewrite Hr.
    destruct r as [[d|] w'|e w'|]; try done. simpl in Hp.
    unfold ret, sleep, work_left.
    destruct (0 <? d); simpl;
      [pose proof (waiting_le_1
                     (set_clock (clock_now w' + d + Z.of_nat (oversleep d w')) w'))
      |pose proof (waiting_le_1 w')]; lia. }
  destruct (current (ev w)) as [|[[cb a] k] rest] eqn:Hc.
  2:{ eapply Hwork; [|by apply run0_current].
      apply invoke_progress; [done|]. unfold backlog. simpl. rewrite Hc. simpl.
      apply backlog_pop. }
  destruct (decide (idle_runnable (ev w))) as [Hi|Hi].
  { eapply Hwork; [|by apply run0_idle].
    pose proof (run_idle_progress w Hs Hi) as Hp.
    unfold bind, ret. by destruct (run_idle w). }
  destruct (queue (ev w)) as [|[[[t cb] a] k] rest] eqn:Hq.
  - destruct (decide (rpcs (ev w) = ∅)) as [Hp|Hp].
    + by rewrite (run1_nothing w w (run0_drained w Hc Hi Hp Hq)).
    + eapply Hwork; [by apply rpc_step_progress|].
      apply run0_rpc; try done. unfold timer_due. rewrite Hq. tauto.
  - destruct (Z.le_gt_cases t (clock_now w)) as [Ht|Ht].
    { eapply Hwork; [|by eapply run0_due].
      apply invoke_progress; [done|]. unfold backlog. simpl. rewrite Hc, Hq. simpl.
      nia. }
    destruct (decide (rpcs (ev w) = ∅)) as [Hp|Hp].
    + assert (run0 w = Ok (Some (t - clock_now w)) w) as H0.
      { by apply (run0_wait w (t, cb, a, k) rest). }
      rewrite (run1_slept w w (t - clock_now w) H0) by lia.
      unfold work_left, waiting. simpl. rewrite Hq. unfold deadline. simpl.
      destruct (Z.leb_spec t (clock_now w + (t - clock_now w) +
                              Z.of_nat (oversleep (t - clock_now w) w))); [|lia].
      destruct (Z.leb_spec t (clock_now w)); lia.
    + eapply Hwork; [by apply rpc_step_progress|].
      apply run0_rpc; try done. unfold timer_due. rewrite Hq.
      unfold deadline. simpl. lia.
Qed.

Lemma run_loop_returns `{Environment} : settles -> forall n w,
  (work_left w < n)%nat -> returns (run_loop n w).
Proof.
  intros Hs. induction n as [|n IH]; intros w Hn; [lia|].
  simpl. unfold bind.
  pose proof (run1_progress w Hs) as Hp.
  destruct (run1 w) as [[] w'|e w'|]; try done.
  apply IH. lia.
Qed.

Lemma run1_times_step `{Environment} k w w' :
  run1_times (S k) w = Ok true w' <->
  exists w1, run1 w = Ok true w1 /\ run1_times k w1 = Ok true w'.
Proof.
  simpl. unfold bind. split.
  - destruct (run1 w) as [[] w1|x w1|]; try done. intros Hk. by exists w1.
  - by intros (w1 & -> & Hk).
Qed.

(** [run_loop] returns at the first state at rest that its steps reach. *)
Lemma run_loop_iff `{Environment} n : forall w w',
  run_loop n w = Ok tt w' <->
  exists k, (k < n)%nat /\ run1_times k w = Ok true w' /\ at_rest (ev w').
Proof.
  induction n as [|n IH]; intros w w'.
  - split; [done|]. intros (k & Hk & _). lia.
  - split.
    + intros Hr. pose proof (run_loop_at_rest _ _ _ Hr) as Hrest.
      simpl in Hr. unfold bind in Hr.
      destruct (run1 w) as [[] w1|x w1|] eqn:H1; try done.
      * apply IH in Hr as (k & Hk & Hsteps & _).
        exists (S k). split; [lia|]. split; [|done].
        apply run1_times_step. by exists w1.
      * injection Hr as <-. unfold run1, bind in H1.
        destruct (run0 w) as [[d|] w0|x w0|] eqn:H0; try done.
        { by destruct (0 <? d). }
        injection H1 as <-. apply run0_None in H0 as [-> _].
        exists O. split; [lia|]. by split.
    + intros ([|k] & Hk & Hsteps & Hrest).
      * injection Hsteps as <-. destruct Hrest as (Hc & Hq & Hp & Hi).
        apply run_loop_stop, run1_nothing, run0_drained; try done.
        unfold idle_runnable. lia.
      * apply run1_times_step in Hsteps as (w1 & H1 & Hsteps).
        rewrite (run_loop_more n w w1 H1). apply IH. exists k.
        split; [lia|done].
Qed.

(** C2 (as amended): [run] returns exactly when its steps, each of which
    did some work or slept, bring the loop to rest, and it returns there:
    so it terminates whenever the queues come to rest after some number of
    steps, and whenever it returns, the immediate queue, the timer queue and
    the table are empty and no idler is runnable, though idlers that are
    backed off may remain queued.  In particular, when callbacks leave the
    loop's queues alone and report no idle work, and [wait_any] hands over
    an RPC whenever the table is not empty, [run] returns (or raises) after
    a number of steps bounded by the work queued. *)
Theorem run_drains `{Environment} (w : World) :
  (forall n w', run n w = Ok tt w' ->
     current (ev w') = [] /\ queue (ev w') = [] /\ rpcs (ev w') = ∅ /\
     ~ idle_runnable (ev w')) /\
  (forall n w',
     run n w = Ok tt w' <->
     exists k, (k < n)%nat /\
       run1_times k (with_ev (set_inactive O) w) = Ok true w' /\
       at_rest (ev w')) /\
  (settles -> returns (run (S (work_left (with_ev (set_inactive O) w))) w)).
Proof.
  split; [|split].
  - intros n w' Hr. apply run_loop_at_rest in Hr as (? & ? & ? & ?).
    unfold idle_runnable. repeat split; [done..|lia].
  - intros n w'. apply run_loop_iff.
  - intros Hs. unfold run. apply run_loop_returns; [done|lia].
Qed.

Lemma demo_settles : @settles demo_env.
Proof.
  split.
  - intros f a k w. simpl. unfold demo_apply.
    destruct f as [|[|[|f]]]; by split.
  - intros w Hp. simpl. unfold demo_wait_any.
    destruct (map_to_list (rpcs (ev w))) as [|[h x] l] eqn:Hl; [|done].
    by apply map_to_list_empty_iff in Hl.
Qed.

(** A run whose first callback queues another one: the loop is at rest
    after two steps, and [run] returns there; and the loop of the example
    with work of all four kinds, whose callbacks leave the queues alone. *)
Lemma run_drains_witness :
  @run chain_env 3 chained =
    Ok tt (mkWorld empty_loop 100 (fun _ => RUNNING) ∅ [8; 5]
             [(8%nat, [], []); (5%nat, [1], [])]) /\
  returns (@run demo_env (S (work_left (with_ev (set_inactive O) busy))) busy).
Proof.
  split.
  - apply (proj1 (proj2 (@run_drains chain_env chained))).
    exists 2%nat. split; [lia|]. split; [vm_compute; reflexivity|].
    unfold at_rest. simpl. repeat split; lia.
  - apply (proj2 (proj2 (@run_drains demo_env busy))). apply demo_settles.
Defined.

(** The callbacks of that first run do not leave the queues alone. *)
Example chain_env_queues :
  exists w', @apply_callable chain_env 8 [] [] fresh = Ok None w' /\
             current (ev w') = [(Callable 5, [1], [])].
Proof. by eexists. Qed.

(** The run of the example: immediate item, idler, RPC, idler again, a
    sleep of five seconds, the timer, and the idler a third time. *)
Example busy_run :
  @run demo_env 10 busy =
    Ok tt (mkWorld (mkLoop [] [cb0] 1 [] ∅) 105
             (fun x => if decide (x = 1%positive) then FINISHING else RUNNING)
             ∅ [1; 0; 6; 0; 5; 0]
             [(1%nat, [7], []); (0%nat, [], []); (6%nat, [], []);
              (0%nat, [], []); (5%nat, [], []); (0%nat, [], [])]).
Proof. vm_compute. reflexivity. Qed.

(** C2, as first stated, fails: [run] returns although the idler queue is
    not empty. *)
Lemma run_returns_with_idlers :
  @run demo_env 2 (with_ev (set_idlers [cb0]) fresh) =
    Ok tt (mkWorld (mkLoop [] [cb0] 1 [] ∅) 100 (fun _ => RUNNING) ∅ [0]
             [(0%nat, [], [])]) /\
  idlers (mkLoop [] [cb0] 1 [] ∅) = [cb0].
Proof. split; [vm_compute|]; reflexivity. Qed.

(** * More of the module *)

(** ** [insort_event_right] with bounds given *)

(** X1: [insort_event_right] returns or raises, whatever the bounds; it
    raises [ValueError] exactly when [lo] is negative; an exception leaves
    the loop as it was; bounds inside the queue never raise; and when it
    returns, the queue has grown by the event alone, the other events in
    their order, and nothing else has changed. *)
Theorem insort_event_right_outcomes (e : event) (lo : Z) (hi : option Z)
    (w : World) :
  returns (insort_event_right e lo hi w) /\
  (insort_event_right e lo hi w = Raise ValueError w <-> lo < 0) /\
  (forall x w', insort_event_right e lo hi w = Raise x w' ->
     w' = w /\ (x = ValueError \/ x = IndexError)) /\
  (forall w', insort_event_right e lo hi w = Ok tt w' ->
     exists i : nat,
       queue (ev w') = take i (queue (ev w)) ++ e :: drop i (queue (ev w)) /\
       w' = with_ev (set_queue (queue (ev w'))) w) /\
  (0 <= lo -> default (Z.of_nat (length (queue (ev w)))) hi
              <= Z.of_nat (length (queue (ev w))) ->
     exists w', insort_event_right e lo hi w = Ok tt w').
Proof.
  split; [apply insort_event_right_returns|].
  unfold insort_event_right.
  destruct (Z.ltb_spec lo 0) as [Hlo|Hlo].
  - split; [done|]. split; [intros x w' [= <- <-]; auto|].
    split; [done|lia].
  - split; [split; [|lia]|].
    { destruct (bisect _ _ _ _ _); try done. }
    split; [|split].
    + intros x w'. destruct (bisect _ _ _ _ _); try done.
      intros [= <- <-]. auto.
    + intros w'. destruct (bisect _ _ _ _ _) as [i| |]; try done.
      intros [= <-]. by exists (Z.to_nat i).
    + intros _ Hhi.
      destruct hi as [h|]; simpl in Hhi.
      * destruct (bisect_total (Z.to_nat (h - lo)) (queue (ev w)) (deadline e) lo h)
          as (i & -> & _); [lia..|]. by eexists.
      * destruct (bisect_total (Z.to_nat (Z.of_nat (length (queue (ev w))) - lo))
                    (queue (ev w)) (deadline e) lo
                    (Z.of_nat (length (queue (ev w)))))
          as (i & -> & _); [lia..|]. by eexists.
Qed.

(** On a sorted queue the place right of the events due at [t] or earlier
    is unique. *)
Lemma insertion_point_unique (q : list event) (t i i' : Z) :
  0 <= i <= Z.of_nat (length q) -> 0 <= i' <= Z.of_nat (length q) ->
  (forall j e, Z.of_nat j < i -> q !! j = Some e -> deadline e <= t) ->
  (forall j e, i <= Z.of_nat j -> q !! j = Some e -> t < deadline e) ->
  (forall j e, Z.of_nat j < i' -> q !! j = Some e -> deadline e <= t) ->
  (forall j e, i' <= Z.of_nat j -> q !! j = Some e -> t < deadline e) ->
  i = i'.
Proof.
  intros Hi Hi' Hl Hr Hl' Hr'.
  destruct (Z.lt_trichotomy i i') as [Hlt|[?|Hlt]]; [|done|]; exfalso.
  - destruct (lookup_lt_is_Some_2 q (Z.to_nat i)) as [e He]; [lia|].
    pose proof (Hr (Z.to_nat i) e ltac:(lia) He).
    pose proof (Hl' (Z.to_nat i) e ltac:(lia) He). lia.
  - destruct (lookup_lt_is_Some_2 q (Z.to_nat i')) as [e He]; [lia|].
    pose proof (Hr' (Z.to_nat i') e ltac:(lia) He).
    pose proof (Hl (Z.to_nat i') e ltac:(lia) He). lia.
Qed.

(** X2: on a sorted queue, bounds that enclose the place of the event (the
    events before [lo] are due no later, the events from [hi] on are due
    later) give the result of the search over the whole queue. *)
Theorem insort_event_right_bounded (e : event) (lo hi : Z) (w : World) :
  sorted_by_deadline (queue (ev w)) ->
  0 <= lo <= hi -> hi <= Z.of_nat (length (queue (ev w))) ->
  (forall j x, Z.of_nat j < lo -> queue (ev w) !! j = Some x ->
     deadline x <= deadline e) ->
  (forall j x, hi <= Z.of_nat j -> queue (ev w) !! j = Some x ->
     deadline e < deadline x) ->
  insort_event_right e lo (Some hi) w = insort_event_right e 0 None w.
Proof.
  intros Hs Hlo Hhi Hl Hr. unfold insort_event_right.
  destruct (Z.ltb_spec lo 0); [lia|]. simpl.
  destruct (bisect_sorted (Z.to_nat (hi - lo)) (queue (ev w)) (deadline e) lo hi Hs)
    as (i & -> & Hi & Hil & Hir); [lia..|done|done|].
  destruct (bisect_sorted (Z.to_nat (Z.of_nat (length (queue (ev w))) - 0))
              (queue (ev w)) (deadline e) 0 (Z.of_nat (length (queue (ev w)))) Hs)
    as (i' & -> & Hi' & Hil' & Hir'); [lia..| | |].
  { intros j x Hj. lia. }
  { intros j x Hj Hx. apply lookup_lt_Some in Hx. lia. }
  by rewrite (insertion_point_unique (queue (ev w)) (deadline e) i i').
Qed.

Lemma insort_event_right_bounded_witness :
  insort_event_right (4, Callable 5, [], []) 1 (Some 3)
    (with_ev (set_queue [(1, Callable 6, [], []); (3, Callable 6, [], []);
                         (5, Callable 7, [], [])]) fresh) =
  insort_event_right (4, Callable 5, [], []) 0 None
    (with_ev (set_queue [(1, Callable 6, [], []); (3, Callable 6, [], []);
                         (5, Callable 7, [], [])]) fresh).
Proof.
  apply (insort_event_right_bounded (4, Callable 5, [], []) 1 3).
  - repeat constructor; unfold le_deadline, deadline; simpl; lia.
  - lia.
  - simpl. lia.
  - intros [|j] x Hj Hx; [|lia]. injection Hx as <-. unfold deadline. simpl. lia.
  - intros [|[|[|j]]] x Hj Hx; try (simpl in Hj; lia); done.
Defined.

(** ** Queuing is a stable sort *)

(** Each insertion keeps the events due at one time in the order queued. *)
Lemma stable_insertion (es : list event) (w : World) :
  sorted_by_deadline (queue (ev w)) ->
  exists q',
    queue_events es w = Ok tt (with_ev (set_queue q') w) /\
    sorted_by_deadline q' /\
    q' ≡ₚ queue (ev w) ++ es /\
    forall t, filter (fun x => deadline x = t) q' =
              filter (fun x => deadline x = t) (queue (ev w)) ++
              filter (fun x => deadline x = t) es.
Proof.
  revert w. induction es as [|e es IH]; intros w Hs.
  - exists (queue (ev w)). rewrite app_nil_r. split; [by destruct w as [[] ?]|].
    split; [done|]. split; [done|]. intros t. by rewrite app_nil_r.
  - destruct (insort_default_sorted e w Hs)
      as (l1 & l2 & Hq & Hins & Hl1 & Hl2 & Hs').
    destruct (IH (with_ev (set_queue (l1 ++ e :: l2)) w) Hs')
      as (q' & Hev & Hsq & Hperm & Hst).
    exists q'. simpl. unfold bind. rewrite Hins. split; [exact Hev|].
    split; [done|]. split.
    { rewrite Hperm. simpl. rewrite Hq.
      rewrite <- !app_assoc. apply Permutation_app_head.
      simpl. by rewrite Permutation_middle. }
    intros t. rewrite Hst. simpl. rewrite Hq.
    rewrite !filter_app, !filter_cons, <- !app_assoc. f_equal.
    destruct (decide (deadline e = t)) as [Ht|Ht]; [|done].
    assert (filter (fun x => deadline x = t) l2 = []) as ->; [|done].
    clear -Hl2 Ht. induction Hl2 as [|x l Hx _ IH]; [done|].
    rewrite filter_cons, decide_False by lia. exact IH.
Qed.

(** X3: events queued one after the other on a sorted timer queue leave it
    sorted, holding the old and the new events; among the events due at one
    and the same time the old ones come first and every one keeps its place
    relative to the others: the order of queuing. *)
Theorem queue_events_stable (es : list event) (w : World) :
  sorted_by_deadline (queue (ev w)) ->
  exists q',
    queue_events es w = Ok tt (with_ev (set_queue q') w) /\
    sorted_by_deadline q' /\
    q' ≡ₚ queue (ev w) ++ es /\
    forall t, filter (fun x => deadline x = t) q' =
              filter (fun x => deadline x = t) (queue (ev w)) ++
              filter (fun x => deadline x = t) es.
Proof. apply stable_insertion. Qed.

Lemma queue_events_stable_witness :
  exists q',
    queue_events [(2, Callable 5, [1], []); (1, Callable 6, [], []);
                  (2, Callable 5, [2], [])] fresh =
      Ok tt (with_ev (set_queue q') fresh) /\
    sorted_by_deadline q' /\
    q' ≡ₚ queue (ev fresh) ++
          [(2, Callable 5, [1], []); (1, Callable 6, [], []);
           (2, Callable 5, [2], [])] /\
    forall t, filter (fun x => deadline x = t) q' =
              filter (fun x => deadline x = t) (queue (ev fresh)) ++
              filter (fun x => deadline x = t)
                [(2, Callable 5, [1], []); (1, Callable 6, [], []);
                 (2, Callable 5, [2], [])].
Proof.
  apply (queue_events_stable
           [(2, Callable 5, [1], []); (1, Callable 6, [], []);
            (2, Callable 5, [2], [])] fresh).
  constructor.
Defined.

(** ** The order of a whole run *)

Lemma run_loop_at_rest_stops `{Environment} m w :
  at_rest (ev w) -> run_loop (S m) w = Ok tt w.
Proof.
  intros (Hc & Hq & Hp & Hi).
  apply run_loop_stop, run1_nothing, run0_drained; try done.
  unfold idle_runnable. lia.
Qed.

Lemma immediate_steps `{Environment} cs : forall w,
  current (ev w) = cs -> inactive (ev w) = O -> Forall quiet_item cs ->
  exists w', (forall m, run_loop (length cs + m) w = run_loop m w') /\
    ev w' = set_current [] (ev w) /\
    calls w' = calls w ++ flat_map item_call cs.
Proof.
  induction cs as [|[[cb a] k] rest IH]; intros w Hc Hi Hall.
  - exists w. rewrite app_nil_r. split; [done|]. split; [|done].
    destruct w as [[] ?]. simpl in *. by subst.
  - apply Forall_cons in Hall as [(f & Hf & Hquiet) Hall]. simpl in Hf, Hquiet.
    subst cb.
    destruct (invoke_quiet f a k
                (with_ev (fun e => set_current rest (set_inactive O e)) w) Hquiet)
      as (v & w2 & Hinv & Hev & Hcalls).
    assert (run1 w = Ok true w2) as Hrun1.
    { apply run1_worked. rewrite (run0_current w (Callable f) a k rest Hc).
      unfold bind. by rewrite Hinv. }
    destruct (IH w2) as (w' & Hloop & Hev' & Hca); [by rewrite Hev..|done|].
    exists w'. split; [|split].
    + intros m. cbn [length Nat.add]. rewrite (run_loop_more _ w w2 Hrun1). apply Hloop.
    + rewrite Hev', Hev. unfold set_current, set_inactive. simpl. by rewrite Hi.
    + rewrite Hca, Hcalls. simpl. by rewrite <- app_assoc.
Qed.

Lemma idle_round `{Environment} l2 : forall l1 w,
  current (ev w) = [] -> idlers (ev w) = l2 ++ l1 ->
  inactive (ev w) = length l1 -> Forall reports_no_work l2 ->
  exists w', (forall m, run_loop (length l2 + m) w = run_loop m w') /\
    ev w' = set_inactive (length l1 + length l2) (set_idlers (l1 ++ l2) (ev w)) /\
    calls w' = calls w ++ flat_map item_call l2.
Proof.
  induction l2 as [|it l2 IH]; intros l1 w Hc Hi Hn Hall.
  - exists w. rewrite !app_nil_r, Nat.add_0_r. split; [done|]. split; [|done].
    destruct w as [[] ?]. simpl in *. by subst.
  - apply Forall_cons in Hall as [Hit Hall].
    assert (idle_runnable (ev w)) as Hrun.
    { unfold idle_runnable. rewrite Hi, Hn. simpl. rewrite length_app. lia. }
    destruct (invoke_quiet_idler it (with_ev (set_idlers (l2 ++ l1)) w) Hit)
      as (w2 & Hinv & Hev & Hcalls).
    set (w3 := with_ev (fun e => set_idlers (idlers e ++ [it]) e)
                 (with_ev (fun e => set_inactive (S (inactive e)) e) w2)).
    assert (run1 w = Ok true w3) as Hrun1.
    { apply run1_worked. rewrite run0_idle by done. unfold bind.
      rewrite (run_idle_runs w it (l2 ++ l1) Hi Hrun), Hinv. done. }
    destruct (IH (l1 ++ [it]) w3) as (w' & Hloop & Hev' & Hca).
    + subst w3. simpl. by rewrite Hev.
    + subst w3. simpl. rewrite Hev. simpl. by rewrite <- app_assoc.
    + subst w3. simpl. rewrite Hev. simpl. rewrite Hn, length_app. simpl. lia.
    + done.
    + exists w'. split; [|split].
      * intros m. cbn [length Nat.add]. rewrite (run_loop_more _ w w3 Hrun1). apply Hloop.
      * rewrite Hev'. subst w3. simpl. rewrite Hev. simpl.
        rewrite <- !app_assoc, !length_app. simpl.
        unfold set_inactive, set_idlers. simpl. f_equal. lia.
      * rewrite Hca. subst w3. simpl. rewrite Hcalls. simpl.
        by rewrite <- app_assoc.
Qed.

Lemma timer_step `{Environment} w t f a k rest :
  current (ev w) = [] -> ~ idle_runnable (ev w) -> rpcs (ev w) = ∅ ->
  queue (ev w) = (t, Callable f, a, k) :: rest -> quiet f a k ->
  exists n w', (forall m, run_loop (n + m) w = run_loop m w') /\
    ev w' = set_queue rest (set_inactive O (ev w)) /\
    calls w' = calls w ++ [(f, a, k)].
Proof.
  intros Hc Hi Hp Hq Hquiet.
  assert (forall w0, ev w0 = ev w -> calls w0 = calls w -> t <= clock_now w0 ->
            exists w', run1 w0 = Ok true w' /\
              ev w' = set_queue rest (set_inactive O (ev w)) /\
              calls w' = calls w ++ [(f, a, k)]) as Hdue.
  { intros w0 Hev0 Hca0 Ht.
    destruct (invoke_quiet f a k
                (with_ev (fun e => set_queue rest (set_inactive O e)) w0) Hquiet)
      as (v & w2 & Hinv & Hev & Hcalls).
    exists w2. split; [|split].
    - apply run1_worked.
      rewrite (run0_due w0 t (Callable f) a k rest) by (by rewrite ?Hev0).
      unfold bind. by rewrite Hinv.
    - rewrite Hev. simpl. by rewrite Hev0.
    - rewrite Hcalls. simpl. by rewrite Hca0. }
  destruct (Z.le_gt_cases t (clock_now w)) as [Ht|Ht].
  - destruct (Hdue w eq_refl eq_refl Ht) as (w' & Hrun1 & Hev & Hca).
    exists 1%nat, w'. split; [|done]. intros m. cbn [Nat.add].
    by rewrite (run_loop_more _ w w' Hrun1).
  - assert (run0 w = Ok (Some (t - clock_now w)) w) as Hsleep.
    { by rewrite (run0_wait w (t, Callable f, a, k) rest). }
    apply run1_slept in Hsleep; [|lia].
    destruct (Hdue (set_clock (clock_now w + (t - clock_now w) +
                               Z.of_nat (oversleep (t - clock_now w) w)) w)
                eq_refl eq_refl)
      as (w' & Hrun1 & Hev & Hca); [simpl; lia|].
    exists 2%nat, w'. split; [|done]. intros m. cbn [Nat.add].
    rewrite (run_loop_more _ w _ Hsleep).
    by rewrite (run_loop_more _ _ w' Hrun1).
Qed.

Lemma timers_and_idlers `{Environment} (ids : list item) q : forall w,
  Forall reports_no_work ids -> Forall quiet_event q ->
  ev w = mkLoop [] ids O q ∅ ->
  exists n w', run_loop n w = Ok tt w' /\
    ev w' = mkLoop [] ids (length ids) [] ∅ /\
    calls w' = calls w ++ flat_map item_call ids ++
      flat_map (fun e => item_call (event_item e) ++ flat_map item_call ids) q.
Proof.
  induction q as [|e rest IH]; intros w Hids Hq Hev.
  - destruct (idle_round ids [] w) as (w1 & Hloop & Hev1 & Hca1);
      try (rewrite Hev; simpl; by rewrite ?app_nil_r); [done|].
    rewrite Hev in Hev1. simpl in Hev1.
    exists (length ids + 1)%nat, w1. rewrite Hloop. split; [|split].
    + apply run_loop_at_rest_stops. rewrite Hev1. unfold at_rest. simpl.
      repeat split; done.
    + done.
    + by rewrite Hca1, !app_nil_r.
  - apply Forall_cons in Hq as [(f & Hf & Hquiet) Hq].
    destruct e as [[[t cb] a] k]. simpl in Hf, Hquiet. subst cb.
    destruct (idle_round ids [] w) as (w1 & Hloop & Hev1 & Hca1);
      try (rewrite Hev; simpl; by rewrite ?app_nil_r); [done|].
    rewrite Hev in Hev1. simpl in Hev1.
    destruct (timer_step w1 t f a k rest) as (n2 & w2 & Hloop2 & Hev2 & Hca2);
      try (rewrite Hev1; simpl; done); [|done|].
    { unfold idle_runnable. rewrite Hev1. simpl. lia. }
    rewrite Hev1 in Hev2. simpl in Hev2.
    destruct (IH w2 Hids Hq Hev2) as (n3 & w3 & Hloop3 & Hev3 & Hca3).
    exists (length ids + (n2 + n3))%nat, w3.
    rewrite Hloop, Hloop2. split; [done|]. split; [done|].
    rewrite Hca3, Hca2, Hca1. simpl. unfold item_call at 3, event_item. simpl.
    by rewrite <- !app_assoc.
Qed.

(** Immediate items first, then rounds of idlers around the timers. *)
Lemma whole_run `{Environment} (w : World) (cs ids : list item)
    (q : list event) (i : nat) :
  ev w = mkLoop cs ids i q ∅ ->
  Forall quiet_item cs -> Forall reports_no_work ids -> Forall quiet_event q ->
  exists n w',
    run n w = Ok tt w' /\
    ev w' = mkLoop [] ids (length ids) [] ∅ /\
    calls w' = calls w ++ flat_map item_call cs ++ flat_map item_call ids ++
      flat_map (fun e => item_call (event_item e) ++ flat_map item_call ids) q.
Proof.
  intros Hev Hcs Hids Hq. unfold run.
  destruct (immediate_steps cs (with_ev (set_inactive O) w))
    as (w1 & Hloop1 & Hev1 & Hca1).
  { simpl. by rewrite Hev. }
  { done. }
  { done. }
  simpl in Hev1, Hca1. rewrite Hev in Hev1. simpl in Hev1.
  destruct (timers_and_idlers ids q w1 Hids Hq Hev1) as (n & w' & Hloop & Hev' & Hca).
  exists (length cs + n)%nat, w'. rewrite Hloop1. split; [done|]. split; [done|].
  by rewrite Hca, Hca1, <- !app_assoc.
Qed.

(** X4: the order of a whole run.  On a loop that holds immediate items,
    idlers that report no work, and timed events (no pending RPC), with
    callbacks that have a [__name__] and leave the loop alone, [run]
    returns having called: the
    immediate items in their order; then the idlers, each once; then, for
    each timed event in the order of the queue, the event and after it the
    idlers once more.  The idlers stay queued, backed off. *)
Theorem run_order `{Environment} (w : World) (cs ids : list item)
    (q : list event) (i : nat) :
  ev w = mkLoop cs ids i q ∅ ->
  Forall quiet_item cs -> Forall reports_no_work ids -> Forall quiet_event q ->
  exists n w',
    run n w = Ok tt w' /\
    ev w' = mkLoop [] ids (length ids) [] ∅ /\
    calls w' = calls w ++ flat_map item_call cs ++ flat_map item_call ids ++
      flat_map (fun e => item_call (event_item e) ++ flat_map item_call ids) q.
Proof. apply whole_run. Qed.

Lemma demo_quiet_item_5 a k : @quiet_item demo_env (Callable 5, a, k).
Proof. exists 5%nat. split; [done|]. apply demo_quiet_5. Qed.

Lemma demo_quiet_event_6 t a k : @quiet_event demo_env (t, Callable 6, a, k).
Proof. exists 6%nat. split; [done|]. apply demo_quiet_6. Qed.

Lemma run_order_witness :
  exists n w',
    @run demo_env n
      (with_ev (fun _ => mkLoop [(Callable 5, [2], []); (Callable 5, [1], [])]
                           [cb0] 7 [(100, Callable 6, [], [])] ∅) fresh) =
      Ok tt w' /\
    ev w' = mkLoop [] [cb0] (length [cb0]) [] ∅ /\
    calls w' =
      calls (with_ev (fun _ => mkLoop [(Callable 5, [2], []); (Callable 5, [1], [])]
                                 [cb0] 7 [(100, Callable 6, [], [])] ∅) fresh) ++
      flat_map item_call [(Callable 5, [2], []); (Callable 5, [1], [])] ++
      flat_map item_call [cb0] ++
      flat_map (fun e => item_call (event_item e) ++ flat_map item_call [cb0])
        [(100, Callable 6, [], [])].
Proof.
  apply (@run_order demo_env _ [(Callable 5, [2], []); (Callable 5, [1], [])]
           [cb0] [(100, Callable 6, [], [])] 7%nat).
  - reflexivity.
  - repeat constructor; apply demo_quiet_item_5.
  - repeat constructor; apply demo_no_work.
  - repeat constructor; apply demo_quiet_event_6.
Defined.

(** ** First queued, first called *)






(** ** [clear] *)

Lemma pending_false (e : EventLoop) :
  pending e = false <->
  current e = [] /\ idlers e = [] /\ queue e = [] /\ rpcs e = ∅.
Proof.
  unfold pending. destruct (current e), (idlers e), (queue e);
    rewrite ?dict_nonempty_false; split; try done;
    intros (? & ? & ? & ?); done.
Qed.

(** X6: [clear] returns after at most one pass of its loop, with the four
    containers empty and without having called anything, and a step of the
    loop then finds nothing to do; a loop with nothing pending is left
    exactly as it is (its counter too), any other gets a counter of 0. *)
Theorem clear_drops_everything `{Environment} (w : World) (n : nat) :
  exists w',
    clear (S n) w = Ok tt w' /\
    current (ev w') = [] /\ idlers (ev w') = [] /\ queue (ev w') = [] /\
    rpcs (ev w') = ∅ /\
    calls w' = calls w /\
    run0 w' = Ok None w' /\
    (pending (ev w) = false -> w' = w) /\
    (pending (ev w) = true -> inactive (ev w') = O).
Proof.
  simpl. destruct (pending (ev w)) eqn:Hp.
  - exists (with_ev (fun _ => empty_loop) w).
    split; [by destruct n|]. repeat split; try done;
      try (apply run0_drained; try done; unfold idle_runnable; simpl; lia).
  - exists w. apply pending_false in Hp as (Hc & Hi & Hq & Hr).
    repeat split; try done;
      try (apply run0_drained; try done; unfold idle_runnable; rewrite Hi;
           simpl; lia).
Qed.

(** ** [run1] *)

(** X7: [run1] returns [False] exactly when the loop is at rest (the
    immediate queue, the timer queue and the table empty, no idler
    runnable), and it then changes nothing. *)
Theorem run1_false_iff `{Environment} (w w' : World) :
  run1 w = Ok false w' <-> w' = w /\ at_rest (ev w).
Proof.
  split.
  - intros H1. unfold run1, bind in H1.
    destruct (run0 w) as [[d|] w0|e w0|] eqn:H0; try done.
    + by destruct (0 <? d).
    + injection H1 as <-. by apply run0_None in H0.
  - intros (-> & Hc & Hq & Hp & Hi).
    apply run1_nothing, run0_drained; try done. unfold idle_runnable. lia.
Qed.

(** X8: with nothing to do but wait for the first timer, [run1] changes the
    clock alone, which then reads the deadline of that timer or later (a
    sleep lasts at least as long as asked), and returns [True]; the next
    step of the loop pops that timer and calls its callback, if that has a
    [__name__]. *)
Theorem run1_sleeps_until_due `{Environment} (w : World) (t : Z) (cb : callback)
    (a : args_t) (k : kwds_t) (rest : list event) :
  current (ev w) = [] -> ~ idle_runnable (ev w) -> rpcs (ev w) = ∅ ->
  queue (ev w) = (t, cb, a, k) :: rest -> clock_now w < t ->
  has_name cb = true ->
  exists w' w1,
    run1 w = Ok true w' /\
    w' = set_clock (clock_now w') w /\ t <= clock_now w' /\
    loop_fields (ev w1) = ([], idlers (ev w), O, rest, rpcs (ev w)) /\
    calls w1 = calls w /\ clock_now w1 = clock_now w' /\
    zero_after (invoke cb a k w1) (run0 w').
Proof.
  intros Hc Hi Hp Hq Ht Hn.
  assert (run0 w = Ok (Some (t - clock_now w)) w) as H0.
  { by apply (run0_wait w (t, cb, a, k) rest). }
  apply run1_slept in H0; [|lia].
  eexists. eexists. split; [exact H0|]. split; [done|]. split; [simpl; lia|].
  split; [|split; [|split]].
  4:{ erewrite (run0_due _ t cb a k rest); try done; [|simpl; lia].
      rewrite <- (log_and_call_named cb a k _ Hn). apply zero_after_bind. }
  all: try done.
  unfold loop_fields. simpl. by rewrite Hc, Hp.
Qed.

(** A sleep that lasts two seconds longer than asked. *)
Lemma run1_sleeps_until_due_witness :
  exists w' w1,
    @run1 slow_env (with_ev (set_queue [(105, Callable 5, [], [])]) fresh) =
      Ok true w' /\
    w' = set_clock (clock_now w')
           (with_ev (set_queue [(105, Callable 5, [], [])]) fresh) /\
    105 <= clock_now w' /\
    loop_fields (ev w1) =
      ([], idlers (ev (with_ev (set_queue [(105, Callable 5, [], [])]) fresh)), O,
       [], rpcs (ev (with_ev (set_queue [(105, Callable 5, [], [])]) fresh))) /\
    calls w1 = calls (with_ev (set_queue [(105, Callable 5, [], [])]) fresh) /\
    clock_now w1 = clock_now w' /\
    zero_after (@invoke slow_env (Callable 5) [] [] w1) (@run0 slow_env w').
Proof.
  apply (@run1_sleeps_until_due slow_env
           (with_ev (set_queue [(105, Callable 5, [], [])]) fresh)
           105 (Callable 5) [] [] []).
  - reflexivity.
  - unfold idle_runnable. simpl. lia.
  - reflexivity.
  - reflexivity.
  - simpl. lia.
  - reflexivity.
Defined.

Example slow_sleep :
  @run1 slow_env (with_ev (set_queue [(105, Callable 5, [], [])]) fresh) =
    Ok true (set_clock 107 (with_ev (set_queue [(105, Callable 5, [], [])]) fresh)).
Proof. reflexivity. Qed.

(** ** Idlers *)

(** X9: [add_idle] does not lift the backoff.  On a loop that holds only
    idlers, all backed off, the next step after [add_idle] calls the oldest
    idler, not the new one; if that one, a callable with a [__name__],
    reports no work, the step after finds nothing to do: the new idler
    waits until the counter is reset. *)
Theorem new_idler_waits `{Environment} (w : World) (it : item) (rest : list item)
    (cb : callback) (a : args_t) (k : kwds_t) :
  current (ev w) = [] -> queue (ev w) = [] -> rpcs (ev w) = ∅ ->
  idlers (ev w) = it :: rest -> inactive (ev w) = length (it :: rest) ->
  reports_no_work it ->
  exists w',
    (add_idle cb a k ;;; run0 ;;; run0) w = Ok None w' /\
    calls w' = calls w ++ item_call it /\
    idlers (ev w') = rest ++ [(cb, a, k); it] /\
    ~ idle_runnable (ev w').
Proof.
  intros Hc Hq Hp Hi Hn Hit. unfold bind at 1, add_idle.
  set (w1 := with_ev (fun e => set_idlers (idlers e ++ [(cb, a, k)]) e) w).
  assert (idle_runnable (ev w1)) as Hrun.
  { unfold idle_runnable. simpl. rewrite Hi, Hn. simpl. rewrite length_app. simpl. lia. }
  destruct (invoke_quiet_idler it (with_ev (set_idlers (rest ++ [(cb, a, k)])) w1) Hit)
    as (w2 & Hinv & Hev & Hcalls).
  set (w3 := with_ev (fun e => set_idlers (idlers e ++ [it]) e)
               (with_ev (fun e => set_inactive (S (inactive e)) e) w2)).
  assert (run0 w1 = Ok (Some 0) w3) as H0.
  { rewrite run0_idle by done. unfold bind.
    rewrite (run_idle_runs w1 it (rest ++ [(cb, a, k)])); [|simpl; by rewrite Hi|done].
    by rewrite Hinv. }
  assert (~ idle_runnable (ev w3)) as Hblocked.
  { unfold idle_runnable. subst w3. simpl. rewrite Hev. simpl.
    rewrite Hn, !length_app. simpl. lia. }
  exists w3. unfold bind. rewrite H0. split; [|split; [|split]].
  - apply run0_drained; try done; subst w3; simpl; by rewrite Hev.
  - subst w3. simpl. by rewrite Hcalls.
  - subst w3. simpl. rewrite Hev. simpl. by rewrite <- app_assoc.
  - done.
Qed.

Lemma new_idler_waits_witness :
  exists w',
    (add_idle (Callable 5) [] [] ;;; @run0 demo_env ;;; @run0 demo_env)
      backed_off = Ok None w' /\
    calls w' = calls backed_off ++ item_call cb0 /\
    idlers (ev w') = [] ++ [(Callable 5, [], []); cb0] /\
    ~ idle_runnable (ev w').
Proof.
  apply (@new_idler_waits demo_env backed_off cb0 [] (Callable 5) [] []);
    try reflexivity.
  apply demo_no_work.
Defined.

Lemma eager_step `{Environment} w it rest :
  current (ev w) = [] -> inactive (ev w) = O ->
  idlers (ev w) = it :: rest -> reports_work it ->
  exists w3, run1 w = Ok true w3 /\
    loop_fields (ev w3) = ([], rest ++ [it], O, queue (ev w), rpcs (ev w)) /\
    calls w3 = calls w ++ item_call it.
Proof.
  intros Hc Hn Hi (f & Hf & Happ).
  destruct it as [[cb a] k]. simpl in Hf, Happ. subst cb.
  destruct (Happ (with_ev (set_idlers rest) w)) as (w2 & Hw2 & Hev).
  exists (with_ev (fun e => set_idlers (idlers e ++ [(Callable f, a, k)]) e)
            (with_ev (fun e => set_inactive O e)
               (set_calls (calls w ++ [(f, a, k)]) w2))).
  split; [|split].
  - apply run1_worked.
    assert (idle_runnable (ev w)) as Hrun.
    { unfold idle_runnable. rewrite Hi, Hn. simpl. lia. }
    rewrite run0_idle by done. unfold bind.
    rewrite (run_idle_runs w (Callable f, a, k) rest Hi Hrun).
    unfold log_and_call. simpl. by rewrite Hw2.
  - unfold loop_fields. simpl. rewrite Hev. simpl. by rewrite Hc.
  - done.
Qed.

Lemma eager_loop `{Environment} n : forall w,
  current (ev w) = [] -> inactive (ev w) = O -> idlers (ev w) <> [] ->
  Forall reports_work (idlers (ev w)) ->
  run_loop n w = Diverge.
Proof.
  induction n as [|n IH]; intros w Hc Hn Hne Hall; [done|].
  destruct (idlers (ev w)) as [|it rest] eqn:Hi; [done|].
  apply Forall_cons in Hall as [Hit Hall].
  destruct (eager_step w it rest Hc Hn Hi Hit) as (w3 & Hrun1 & Hf & _).
  injection Hf as Hc3 Hi3 Hn3 _ _.
  rewrite (run_loop_more n w w3 Hrun1).
  apply IH; rewrite ?Hi3; try done.
  - by destruct rest.
  - apply Forall_app. split; [done|]. by repeat constructor.
Qed.

Lemma eager_steps `{Environment} n : forall w,
  current (ev w) = [] -> inactive (ev w) = O -> idlers (ev w) <> [] ->
  Forall reports_work (idlers (ev w)) ->
  exists w' l,
    run1_times n w = Ok true w' /\
    current (ev w') = [] /\ queue (ev w') = queue (ev w) /\
    rpcs (ev w') = rpcs (ev w) /\
    calls w' = calls w ++ l /\ length l = n /\
    Forall (fun c => c ∈ flat_map item_call (idlers (ev w))) l.
Proof.
  induction n as [|n IH]; intros w Hc Hn Hne Hall.
  - exists w, []. rewrite app_nil_r. by repeat split.
  - destruct (idlers (ev w)) as [|it rest] eqn:Hi; [done|].
    apply Forall_cons in Hall as [Hit Hall].
    destruct (eager_step w it rest Hc Hn Hi Hit) as (w3 & Hrun1 & Hf & Hca3).
    injection Hf as Hc3 Hi3 Hn3 Hq3 Hp3.
    destruct (IH w3) as (w' & l & Hrun & Hc' & Hq' & Hp' & Hca & Hlen & Hl);
      rewrite ?Hi3; try done.
    { by destruct rest. }
    { apply Forall_app. split; [done|]. by repeat constructor. }
    destruct Hit as (f & Hf & _). destruct it as [[cb a] k]. simpl in Hf. subst cb.
    exists w', ((f, a, k) :: l). simpl. unfold bind. rewrite Hrun1.
    split; [done|]. split; [done|]. split; [congruence|]. split; [congruence|].
    split; [rewrite Hca, Hca3; by rewrite <- app_assoc|].
    split; [by rewrite Hlen|].
    constructor; [apply elem_of_cons; by left|].
    eapply Forall_impl; [exact Hl|]. intros c Hin.
    rewrite Hi3, flat_map_app in Hin. apply elem_of_app in Hin as [Hin|Hin].
    + apply elem_of_cons. by right.
    + simpl in Hin. apply elem_of_cons. left.
      apply elem_of_cons in Hin as [->|Hin]; [done|]. by apply elem_of_nil in Hin.
Qed.

(** X10: while every idler, a callable with a [__name__], reports work
    each time it is called (and no immediate item is queued), [run] does
    not return, however many steps it is given, and the idlers starve the
    rest of the loop: any number of steps can be taken, each one calls an
    idler and returns [True], and the timer queue and the table of RPCs are
    as they were, a timer that is due included. *)
Theorem eager_idler_never_returns `{Environment} (w : World) (n : nat) :
  current (ev w) = [] -> idlers (ev w) <> [] ->
  Forall reports_work (idlers (ev w)) ->
  run n w = Diverge /\
  exists w' l,
    run1_times n (with_ev (set_inactive O) w) = Ok true w' /\
    current (ev w') = [] /\ queue (ev w') = queue (ev w) /\
    rpcs (ev w') = rpcs (ev w) /\
    calls w' = calls w ++ l /\ length l = n /\
    Forall (fun c => c ∈ flat_map item_call (idlers (ev w))) l.
Proof.
  intros Hc Hne Hall. split; [unfold run; by apply eager_loop|].
  by apply (eager_steps n (with_ev (set_inactive O) w)).
Qed.

(** An idler that always has work, and a timer that is due from the start:
    after fifty steps the timer is still queued and the idler alone has
    been called. *)
Lemma eager_idler_never_returns_witness :
  @run eager_env 50
    (with_ev (fun e => set_idlers [(Callable 3, [], [])]
                         (set_queue [(0, Callable 5, [], [])] e)) fresh) = Diverge /\
  exists w' l,
    @run1_times eager_env 50
      (with_ev (set_inactive O)
         (with_ev (fun e => set_idlers [(Callable 3, [], [])]
                              (set_queue [(0, Callable 5, [], [])] e)) fresh)) =
      Ok true w' /\
    current (ev w') = [] /\
    queue (ev w') = [(0, Callable 5, [], [])] /\
    rpcs (ev w') = ∅ /\
    calls w' = [] ++ l /\ length l = 50%nat /\
    Forall (fun c => c ∈ flat_map item_call [(Callable 3, [], [])]) l.
Proof.
  apply (@eager_idler_never_returns eager_env
           (with_ev (fun e => set_idlers [(Callable 3, [], [])]
                                (set_queue [(0, Callable 5, [], [])] e)) fresh)
           50).
  - reflexivity.
  - discriminate.
  - repeat constructor. exists 3%nat. split; [done|]. intros w. by eexists.
Defined.

(** ** Exceptions of immediate and timed callbacks *)

(** X11: an exception raised by the first immediate callback, a callable
    with a [__name__] that leaves the loop's fields alone, leaves [run0]
    and [run] as it is, after that one call; the item had been taken off
    the queue before the call, so the loop holds the rest of the queue, its
    counter is 0, and the idlers, timers and RPCs are as they were. *)
Theorem immediate_exception_propagates `{Environment} (w w2 : World) (f : nat)
    (a : args_t) (k : kwds_t) (rest : list item) (x : exn) (n : nat) :
  current (ev w) = (Callable f, a, k) :: rest ->
  apply_callable f a k
    (with_ev (fun e => set_current rest (set_inactive O e)) w) = Raise x w2 ->
  ev w2 = ev (with_ev (fun e => set_current rest (set_inactive O e)) w) ->
  exists w',
    run0 w = Raise x w' /\
    run (S n) w = Raise x w' /\
    calls w' = calls w ++ [(f, a, k)] /\
    loop_fields (ev w') = (rest, idlers (ev w), O, queue (ev w), rpcs (ev w)).
Proof.
  intros Hc Happ Hev.
  assert (forall w0,
            with_ev (fun e => set_current rest (set_inactive O e)) w0 =
            with_ev (fun e => set_current rest (set_inactive O e)) w ->
            current (ev w0) = (Callable f, a, k) :: rest -> calls w0 = calls w ->
            run0 w0 = Raise x (set_calls (calls w ++ [(f, a, k)]) w2)) as H0.
  { intros w0 Hw0 Hc0 Hca0. rewrite (run0_current w0 (Callable f) a k rest Hc0).
    unfold bind, log_and_call. simpl. rewrite Hw0. simpl. by rewrite Happ, Hca0. }
  exists (set_calls (calls w ++ [(f, a, k)]) w2).
  split; [by apply H0|]. split; [|split; [done|]].
  - unfold run. simpl. unfold bind, run1, bind.
    by rewrite (H0 (with_ev (set_inactive O) w)).
  - unfold loop_fields. simpl. by rewrite Hev.
Qed.

Lemma immediate_exception_propagates_witness :
  exists w',
    @run0 demo_env (with_ev (set_current [cb2; cb0]) fresh) =
      Raise (AppError 2) w' /\
    @run demo_env (S 4) (with_ev (set_current [cb2; cb0]) fresh) =
      Raise (AppError 2) w' /\
    calls w' = calls (with_ev (set_current [cb2; cb0]) fresh) ++ [(2%nat, [], [])] /\
    loop_fields (ev w') =
      ([cb0], idlers (ev (with_ev (set_current [cb2; cb0]) fresh)), O,
       queue (ev (with_ev (set_current [cb2; cb0]) fresh)),
       rpcs (ev (with_ev (set_current [cb2; cb0]) fresh))).
Proof.
  apply (@immediate_exception_propagates demo_env
           (with_ev (set_current [cb2; cb0]) fresh)
           (note 2 (with_ev (fun e => set_current [cb0] (set_inactive O e))
                      (with_ev (set_current [cb2; cb0]) fresh)))
           2%nat [] [] [cb0] (AppError 2) 4%nat); reflexivity.
Defined.

(** ** The table of pending RPCs *)

Lemma register_twice hs (e1 e2 : rpc_entry) (m : gmap handle rpc_entry) :
  foldl (fun m h => <[h:=e2]> m) (foldl (fun m h => <[h:=e1]> m) m hs) hs =
  foldl (fun m h => <[h:=e2]> m) m hs.
Proof.
  apply map_eq. intros s. rewrite !register_lookup.
  by destruct (decide (s ∈ hs)).
Qed.

(** X12: registering an RPC that is already registered replaces the entry:
    two calls of [queue_rpc] on one RPC leave what the second alone would
    have left, so the first callback is never called for it. *)
Theorem queue_rpc_last_wins (r : rpc) (cb1 cb2 : option callback)
    (a1 a2 : args_t) (k1 k2 : kwds_t) (w : World) :
  (queue_rpc (Some r) cb1 a1 k1 ;;; queue_rpc (Some r) cb2 a2 k2) w =
  queue_rpc (Some r) cb2 a2 k2 w.
Proof.
  unfold bind, queue_rpc.
  destruct (rpc_state_of w (rpc_handle r)) eqn:Hst; [done|..];
    (destruct r as [h|h subs]; simpl in *;
     [rewrite Hst; unfold register, with_ev, set_rpcs; simpl;
      by rewrite insert_insert_eq
     |destruct (1 <? length subs)%nat; simpl; rewrite Hst;
      unfold register, with_ev, set_rpcs, set_done; simpl;
      by rewrite ?insert_insert_eq, register_twice]).
Qed.

(** X13: registering a plain RPC that is running or finishing and then
    completing it calls the callback once, with the arguments given, and
    leaves the table without the RPC; with no callback given the RPC is
    removed and nothing is called. *)
Theorem queue_rpc_then_complete `{Environment} (h : handle) (f : nat)
    (a : args_t) (k : kwds_t) (w : World) :
  rpc_state_of w h <> IDLE -> keeps_rpcs f a k ->
  (exists w',
     (queue_rpc (Some (UserRPC h)) (Some (Callable f)) a k ;;; complete_rpc h) w =
       Ok tt w' /\
     calls w' = calls w ++ [(f, a, k)] /\
     rpcs (ev w') = delete h (rpcs (ev w))) /\
  (queue_rpc (Some (UserRPC h)) None a k ;;; complete_rpc h) w =
    Ok tt (with_ev (set_rpcs (delete h (rpcs (ev w)))) w).
Proof.
  intros Hst Hkeep.
  assert (forall cb,
            queue_rpc (Some (UserRPC h)) cb a k w =
            Ok tt (register [h] (cb, a, k) w)) as Hq.
  { intros cb. unfold queue_rpc. cbn [rpc_handle]. by destruct (rpc_state_of w h). }
  split.
  - unfold bind at 1. rewrite Hq. unfold complete_rpc, register.
    cbn [ev with_ev set_rpcs rpcs foldl]. rewrite lookup_insert_eq.
    unfold bind. cbn [invoke].
    match goal with
    | |- context [apply_callable f a k ?W] =>
        destruct (Hkeep W) as (v & w' & -> & Hr & Hd)
    end.
    eexists. split; [done|]. split; [done|].
    cbn [ev set_calls]. rewrite Hr. cbn [ev with_ev set_rpcs rpcs].
    by rewrite delete_insert_eq.
  - unfold bind. rewrite Hq. unfold complete_rpc, register.
    cbn [ev with_ev set_rpcs rpcs foldl]. rewrite lookup_insert_eq.
    unfold with_ev, set_rpcs. cbn. by rewrite delete_insert_eq.
Qed.

Lemma queue_rpc_then_complete_witness :
  (exists w',
     (queue_rpc (Some (UserRPC 1%positive)) (Some (Callable 5)) [4] [] ;;;
      @complete_rpc demo_env 1%positive) fresh = Ok tt w' /\
     calls w' = calls fresh ++ [(5%nat, [4], [])] /\
     rpcs (ev w') = delete 1%positive (rpcs (ev fresh))) /\
  (queue_rpc (Some (UserRPC 1%positive)) None [4] [] ;;;
   @complete_rpc demo_env 1%positive) fresh =
    Ok tt (with_ev (set_rpcs (delete 1%positive (rpcs (ev fresh)))) fresh).
Proof.
  apply (@queue_rpc_then_complete demo_env 1%positive 5%nat [4] [] fresh).
  - discriminate.
  - apply demo_keeps_rpcs_5.
Defined.

(** X14: a composite RPC with no sub-RPC is accepted and registers nothing,
    so its callback is never called; a composite with one sub-RPC is
    registered as that sub-RPC would be, without guard and without flag. *)
Theorem queue_rpc_small_composite (h s : handle) (cb : option callback)
    (a : args_t) (k : kwds_t) (w : World) :
  rpc_state_of w h <> IDLE ->
  queue_rpc (Some (MultiRpc h [])) cb a k w = Ok tt w /\
  (rpc_state_of w s <> IDLE ->
   queue_rpc (Some (MultiRpc h [s])) cb a k w =
   queue_rpc (Some (UserRPC s)) cb a k w) /\
  (forall w', queue_rpc (Some (MultiRpc h [s])) cb a k w = Ok tt w' ->
     rpcs (ev w') = <[s := (cb, a, k)]> (rpcs (ev w)) /\ done w' = done w).
Proof.
  intros Hst. unfold queue_rpc. cbn [rpc_handle length Nat.ltb Nat.leb].
  destruct (rpc_state_of w h) eqn:Hh; [done|..];
    (split; [by destruct w as [[] ?]|]; split;
     [intros Hs; by destruct (rpc_state_of w s)|by intros w' [= <-]]).
Qed.

Lemma queue_rpc_small_composite_witness :
  queue_rpc (Some (MultiRpc 10%positive [])) (Some (Callable 5)) [] [] fresh =
    Ok tt fresh /\
  (rpc_state_of fresh 1%positive <> IDLE ->
   queue_rpc (Some (MultiRpc 10%positive [1%positive])) (Some (Callable 5)) [] [] fresh =
   queue_rpc (Some (UserRPC 1%positive)) (Some (Callable 5)) [] [] fresh) /\
  (forall w',
     queue_rpc (Some (MultiRpc 10%positive [1%positive])) (Some (Callable 5)) [] []
       fresh = Ok tt w' ->
     rpcs (ev w') = <[1%positive := (Some (Callable 5), [], [])]> (rpcs (ev fresh)) /\
     done w' = done fresh).
Proof.
  apply (queue_rpc_small_composite 10%positive 1%positive (Some (Callable 5)) [] []
           fresh).
  discriminate.
Defined.

(** X15: a composite RPC with more than one sub-RPC registered without a
    callback: the completion of a sub-RPC that finds the composite finishing
    raises [TypeError] (the guard calls [None]), with the sub-RPC removed
    and the flag set; nothing has been called. *)
Theorem composite_without_callback `{Environment} (h s : handle)
    (subs : list handle) (a : args_t) (k : kwds_t) (w0 w1 : World)
    (st : handle -> rpc_state) :
  (1 < length subs)%nat -> s ∈ subs ->
  queue_rpc (Some (MultiRpc h subs)) None a k w0 = Ok tt w1 ->
  st h = FINISHING ->
  exists w',
    complete_rpc s (set_rpc_state st w1) = Raise TypeError w' /\
    rpcs (ev w') !! s = None /\ done w' !! h = Some true /\
    calls w' = calls w0.
Proof.
  intros Hlen Hs Hq Hst.
  assert (w1 = register subs (Some (help_multi_rpc_along h None a k), [], [])
                 (set_done h false w0)) as ->.
  { unfold queue_rpc in Hq. cbn [rpc_handle] in Hq.
    destruct (Nat.ltb_spec 1 (length subs)); [|lia].
    destruct (rpc_state_of w0 h); congruence. }
  unfold complete_rpc. cbn [register with_ev ev rpcs set_rpcs set_rpc_state].
  rewrite register_lookup, decide_True by done.
  unfold bind.
  cbn [invoke rpc_state_of with_ev done set_done set_rpc_state register].
  rewrite Hst. cbn [is_finishing]. rewrite lookup_insert_eq.
  eexists. split; [reflexivity|].
  cbn [ev rpcs set_done with_ev set_rpcs done calls set_rpc_state register].
  by rewrite lookup_delete_eq, lookup_insert_eq.
Qed.

Lemma composite_without_callback_witness :
  exists w',
    @complete_rpc demo_env 2%positive
      (set_rpc_state (fun _ => FINISHING)
         (register [1; 2; 3]%positive
            (Some (help_multi_rpc_along 10%positive None [] []), [], [])
            (set_done 10%positive false fresh))) = Raise TypeError w' /\
    rpcs (ev w') !! 2%positive = None /\ done w' !! 10%positive = Some true /\
    calls w' = calls fresh.
Proof.
  apply (@composite_without_callback demo_env 10%positive 2%positive
           [1; 2; 3]%positive [] [] fresh _ (fun _ => FINISHING)).
  - simpl. lia.
  - apply elem_of_cons. right. apply elem_of_cons. by left.
  - reflexivity.
  - reflexivity.
Defined.

(** ** The loop of the context *)

(** X16: [get_event_loop] creates a loop at most once.  The first call
    where none is bound creates one new, empty loop and binds it; a call
    where a loop is bound returns that loop and changes nothing, so two
    calls in a row return the same loop. *)
Theorem get_event_loop_once (c : Context) :
  (get_event_loop (get_event_loop c).2).1 = (get_event_loop c).1 /\
  (get_event_loop (get_event_loop c).2).2 = (get_event_loop c).2 /\
  loops (get_event_loop c).2 !! (get_event_loop c).1 =
    match event_loop_value c with
    | Some i => loops c !! i
    | None => Some empty_loop
    end /\
  (forall i e, loops c !! i = Some e -> loops (get_event_loop c).2 !! i = Some e) /\
  length (loops (get_event_loop c).2) =
    match event_loop_value c with
    | Some _ => length (loops c)
    | None => S (length (loops c))
    end.
Proof.
  unfold get_event_loop.
  destruct (event_loop_value c) as [i|] eqn:Hv; cbn [fst snd].
  - by rewrite Hv.
  - unfold event_loop_value. simpl. repeat split.
    + rewrite lookup_app_r by done. by rewrite Nat.sub_diag.
    + intros i e He. by apply lookup_app_l_Some.
    + rewrite length_app. simpl. lia.
Qed.

(** X17: after [_set_event_loop(None)] the next [get_event_loop] returns a
    loop that is new and empty, whatever the loop bound before still held;
    that loop and all earlier ones are untouched, and the reset token is
    the one taken at the first binding. *)
Theorem rebinding_gives_a_new_loop (c : Context) :
  (get_event_loop (_set_event_loop None c)).1 = length (loops c) /\
  loops (get_event_loop (_set_event_loop None c)).2 !! length (loops c) =
    Some empty_loop /\
  (forall i e, loops c !! i = Some e ->
     i <> (get_event_loop (_set_event_loop None c)).1 /\
     loops (get_event_loop (_set_event_loop None c)).2 !! i = Some e) /\
  testbed_reset_token (get_event_loop (_set_event_loop None c)).2 =
    Some (default (event_loop_var c) (testbed_reset_token c)).
Proof.
  unfold get_event_loop, _set_event_loop, event_loop_value. simpl.
  repeat split.
  - rewrite lookup_app_r by done. by rewrite Nat.sub_diag.
  - apply lookup_lt_Some in H. lia.
  - by apply lookup_app_l_Some.
  - by destruct (testbed_reset_token c).
Qed.
